(** * bastok parser framework: a shallow embedding of [pylib/bastok/parser.py]

    The Python module defines two mutable parser states ([Parser], with a
    confirmed and an unconfirmed parse point, and [PState], with a single
    parse point and an output list) and the generic parsing functions
    [byte], [toksort] and [toktrans].

    Python integers are modelled by [Z], sequences ([str], [bytes]) by
    lists, slicing and indexing by functions that follow Python's rules for
    negative and out-of-range indices, and a method that mutates [self] and
    may raise by a function from the state to an outcome and the state the
    object is left in (the mutation made before a [raise] stays). *)

From Stdlib Require Import ZArith List Bool Ascii String Lia.
From Stdlib Require Import DecimalString Permutation Sorted.
Import ListNotations.

Local Open Scope Z_scope.

(** ** Interfaces the code relies on by duck typing *)

(** [==] on the elements of a sequence. *)
Class EqDec (A : Type) := eq_dec : forall a b : A, {a = b} + {a <> b}.

(** [repr(x)] / [str(x)] as used by the [str.format] calls. *)
Class Repr (A : Type) := repr : A -> string.

#[export] Instance ascii_EqDec : EqDec ascii := ascii_dec.

(** ** Python sequences *)

Module Py.

Definition len {A} (l : list A) : Z := Z.of_nat (List.length l).

(** A slice bound as [PySlice_AdjustIndices] adjusts it (step 1): a
    negative bound counts from the end, then it is clamped to [0, len]. *)
Definition adjust (L i : Z) : Z :=
  let i' := if i <? 0 then i + L else i in
  if i' <? 0 then 0 else if L <? i' then L else i'.

(** [l[i:j]] *)
Definition slice {A} (l : list A) (i j : Z) : list A :=
  let a := adjust (len l) i in
  let b := adjust (len l) j in
  firstn (Z.to_nat (b - a)) (skipn (Z.to_nat a) l).

(** [l[i:]] *)
Definition slice_from {A} (l : list A) (i : Z) : list A :=
  skipn (Z.to_nat (adjust (len l) i)) l.

(** [l[i]]; [None] stands for [IndexError]. *)
Definition index {A} (l : list A) (i : Z) : option A :=
  let i' := if i <? 0 then i + len l else i in
  if (i' <? 0) || (len l <=? i') then None else nth_error l (Z.to_nat i').

(** [l.startswith(x)] *)
Fixpoint startswith {A} `{EqDec A} (l x : list A) {struct x} : bool :=
  match x with
  | [] => true
  | b :: x' =>
      match l with
      | [] => false
      | a :: l' => if eq_dec a b then startswith l' x' else false
      end
  end.

(** [l == m] on sequences *)
Fixpoint seq_eqb {A} `{EqDec A} (l m : list A) : bool :=
  match l, m with
  | [], [] => true
  | a :: l', b :: m' => if eq_dec a b then seq_eqb l' m' else false
  | _, _ => false
  end.

(** [sep.join(items)] on the underlying data *)
Fixpoint join_data {A} (sep : list A) (items : list (list A)) : list A :=
  match items with
  | [] => []
  | [x] => x
  | x :: rest => x ++ sep ++ join_data sep rest
  end.

(** ['{}'.format(n)] for an [int] *)
Definition str_int (n : Z) : string := NilZero.string_of_int (Z.to_int n).

(** [str(l)] for a [list]: the [repr] of the items between brackets *)
Definition str_list {A} `{Repr A} (l : list A) : string :=
  ("[" ++ String.concat ", " (map repr l) ++ "]")%string.

(** [sorted(l, key=key, reverse=True)]: a stable sort, largest key
    first; items with equal keys keep the order they had in [l]. *)
Fixpoint insert_rev {A} (key : A -> Z) (x : A) (l : list A) : list A :=
  match l with
  | [] => [x]
  | y :: l' => if key x <? key y then y :: insert_rev key x l'
               else x :: y :: l'
  end.

Fixpoint sorted_rev {A} (key : A -> Z) (l : list A) : list A :=
  match l with
  | [] => []
  | x :: l' => insert_rev key x (sorted_rev key l')
  end.

(** A literal of type [str]. *)
Definition str (s : string) : list ascii := list_ascii_of_string s.

End Py.

(** ** Classes of output fragments

    [PState.generate] tests [isinstance(x, type(self.olist[0]))], so the
    class of a fragment is part of the model: the two usual fragment
    classes, [str] and [bytes], and classes derived from them by single
    inheritance. *)

Inductive pyclass : Type :=
| Cstr
| Cbytes
| Csub (name : nat) (parent : pyclass).

Fixpoint pyclass_eqb (c d : pyclass) : bool :=
  match c, d with
  | Cstr, Cstr => true
  | Cbytes, Cbytes => true
  | Csub n p, Csub m q => Nat.eqb n m && pyclass_eqb p q
  | _, _ => false
  end.

(** [t in c.__mro__] *)
Fixpoint issubclass (c t : pyclass) : bool :=
  pyclass_eqb c t ||
  match c with
  | Csub _ p => issubclass p t
  | _ => false
  end.

(** A proper subclass: [t] is among the ancestors of [c]. *)
Definition proper_subclass (c t : pyclass) : bool :=
  match c with
  | Csub _ p => issubclass p t
  | _ => false
  end.

(** The built-in class a class derives from. *)
Fixpoint builtin_of (c : pyclass) : pyclass :=
  match c with
  | Csub _ p => builtin_of p
  | b => b
  end.

(** ** Exceptions, and methods of a mutable object *)

Inductive exn : Type :=
| ParseError (msg : string)
| IndexError
| TypeError
| AttributeError.

Inductive outcome (A : Type) : Type :=
| Ret (a : A)
| Raise (e : exn).
Arguments Ret {A} a.
Arguments Raise {A} e.

(** A method call on an object of type [S]: its outcome, and the state the
    object is left in, also when the call raises. *)
Definition M (S A : Type) : Type := S -> outcome A * S.

Definition ret {S A} (a : A) : M S A := fun s => (Ret a, s).

Definition raise {S A} (e : exn) : M S A := fun s => (Raise e, s).

Definition bind {S A B} (m : M S A) (k : A -> M S B) : M S B :=
  fun s =>
    match m s with
    | (Ret a, s') => k a s'
    | (Raise e, s') => (Raise e, s')
    end.

Definition get {S} : M S S := fun s => (Ret s, s).

Definition put {S} (s : S) : M S unit := fun _ => (Ret tt, s).

(** An operation of the language that may raise, within a method. *)
Definition lift {S A} (o : outcome A) : M S A := fun s => (o, s).

Declare Scope py_scope.
Delimit Scope py_scope with py.
Notation "x <- m ;; k" := (bind m (fun x => k))
  (at level 61, m at next level, right associativity) : py_scope.
Notation "m ;; k" := (bind m (fun _ => k))
  (at level 61, right associativity) : py_scope.
Local Open Scope py_scope.

Section Framework.

(** [E]: elements of the input sequence; [O]: elements of the output
    fragments. *)
Context {E O : Type} `{EqDec E}.

(** An output fragment: an object of class [ftype] holding [fdata]. *)
Record frag : Type := Frag { ftype : pyclass; fdata : list O }.

Context `{Repr (list E)} `{Repr frag} `{Repr pyclass}.

(** [isinstance(x, c)] *)
Definition isinstance (x : frag) (c : pyclass) : bool :=
  issubclass (ftype x) c.

(** [c()]: a new, empty instance of class [c] *)
Definition new (c : pyclass) : frag := Frag c [].

(** [sep.join(items)]: every item has to be an instance of the built-in
    class of [sep]; the result is of that built-in class. *)
Definition join (sep : frag) (items : list frag) : outcome frag :=
  let b := builtin_of (ftype sep) in
  if forallb (fun x => isinstance x b) items
  then Ret (Frag b (Py.join_data (fdata sep) (map fdata items)))
  else Raise TypeError.

(** The [Charset] interface: [native(s)] and [trans(n)]. *)
Record Charset : Type := { native : ascii -> E; trans : E -> ascii }.

(** ** class PState *)

Record PState : Type := mkPState {
  input : list E;
  pos : Z;
  olist : list frag;
  charset : option Charset
}.

(** [PState(input, charset)] *)
Definition PState_init (i : list E) (cs : option Charset) : PState :=
  mkPState i 0 [] cs.

(** [self.pos = n] and [self.olist = l] *)
Definition set_pos (p : PState) (n : Z) : PState :=
  mkPState (input p) n (olist p) (charset p).

Definition set_olist (p : PState) (l : list frag) : PState :=
  mkPState (input p) (pos p) l (charset p).

Definition finished (p : PState) : bool :=
  pos p >=? Py.len (input p).

(** The three windows [__str__] shows. *)
Definition ahead (p : PState) : list E :=
  Py.slice (input p) (pos p) (pos p + 12).

Definition behind (p : PState) : list E :=
  Py.slice (input p) (pos p - 12) (pos p).

Definition recent (p : PState) : list frag :=
  Py.slice_from (olist p) (-4).

(** [__str__] *)
Definition PState_str (p : PState) : string :=
  ("at " ++ Py.str_int (pos p) ++ ":" ++ repr (ahead p)
   ++ " after …" ++ repr (behind p)
   ++ " …" ++ Py.str_list (recent p))%string.

Definition error {A} (message : string) : M PState A :=
  fun p => raise (ParseError (message ++ " " ++ PState_str p)%string) p.

Definition consume (n : Z) : M PState (list E) :=
  p <- get ;;
  (if pos p + n >? Py.len (input p)
   then error ("Consumed past end of input: "
               ++ Py.str_int (pos p + n) ++ " > "
               ++ Py.str_int (Py.len (input p)))%string
   else ret tt) ;;
  put (set_pos p (pos p + n)) ;;
  p <- get ;;
  ret (Py.slice (input p) (pos p - n) (pos p)).

Definition peek : M PState (option E) :=
  p <- get ;;
  if pos p >=? Py.len (input p) then ret None
  else match Py.index (input p) (pos p) with
       | Some x => ret (Some x)
       | None => raise IndexError
       end.

Definition remain (p : PState) : list E :=
  Py.slice_from (input p) (pos p).

(** The test of [generate]:
    [len(self.olist) == 0 or isinstance(x, type(self.olist[0]))] *)
Definition accepts (p : PState) (x : frag) : bool :=
  match olist p with
  | [] => true
  | first :: _ => isinstance x (ftype first)
  end.

Definition generate (x : frag) : M PState unit :=
  p <- get ;;
  match olist p with
  | [] => put (set_olist p (olist p ++ [x]))
  | first :: _ =>
      if isinstance x (ftype first)
      then put (set_olist p (olist p ++ [x]))
      else error ("Cannot generate " ++ repr x ++ ": "
                  ++ repr (ftype x) ++ " not an instance of "
                  ++ repr (ftype first) ++ ".")%string
  end.

Definition output : M PState (option frag) :=
  p <- get ;;
  match olist p with
  | [] => ret None
  | first :: _ =>
      let cls := ftype first in
      r <- lift (join (new cls) (olist p)) ;;
      ret (Some r)
  end.

(** ** Parsing functions *)

(** The default of the keyword argument [err] of [byte]. *)
Definition default_err : option string := Some "unexpected end of input"%string.

(** [x = p.consume()[0]] *)
Definition consume_first : M PState E :=
  c <- consume 1 ;;
  match Py.index c 0 with
  | Some x => ret x
  | None => raise IndexError
  end.

Definition byte (genf : option (E -> frag)) (err : option string)
  : M PState (option E) :=
  let rest : M PState (option E) :=
    x <- consume_first ;;
    match genf with
    | Some g => generate (g x)
    | None => ret tt
    end ;;
    ret (Some x) in
  p <- get ;;
  if finished p
  then match err with
       | None => ret None
       | Some e => error (A:=unit) e ;; rest
       end
  else rest.

(** A tuple of the table is indexed by [field0] and [field1]; the typed
    reading of [f[field0]] is a projection (for pairs and the defaults
    0 and 1, [fst] and [snd]). *)
Definition toksort {T V : Type} (toktab : list T)
    (field0 : T -> list E) (field1 : T -> V) : list (list E * V) :=
  let res := map (fun f => (field0 f, field1 f)) toktab in
  Py.sorted_rev (fun t => Py.len (fst t)) res.

Fixpoint toktrans (toktab : list (list E * frag))
  : M PState (option (list E)) :=
  match toktab with
  | [] => ret None
  | (x, y) :: toktab' =>
      p <- get ;;
      if Py.startswith (remain p) x
      then consume (Py.len x) ;; generate y ;; ret (Some x)
      else toktrans toktab'
  end.

(** ** class Parser *)

(** The input of a [Parser]: a [str], or another sequence type. *)
Inductive pinput : Type :=
| InStr (s : list ascii)
| InSeq (l : list E).

Record Parser : Type := mkParser {
  p_input : pinput;
  pos_conf : Z;
  pos_un : Z;
  p_olist : list frag;
  codec : option Charset
}.

(** [Parser(input, codec)] *)
Definition Parser_init (i : pinput) (c : option Charset) : Parser :=
  mkParser i 0 0 [] c.

Definition set_pos_conf (p : Parser) (n : Z) : Parser :=
  mkParser (p_input p) n (pos_un p) (p_olist p) (codec p).

Definition set_pos_un (p : Parser) (n : Z) : Parser :=
  mkParser (p_input p) (pos_conf p) n (p_olist p) (codec p).

Definition Parser_remain (p : Parser) : pinput :=
  match p_input p with
  | InStr s => InStr (Py.slice_from s (pos_conf p))
  | InSeq l => InSeq (Py.slice_from l (pos_conf p))
  end.

Definition Parser_start : M Parser unit :=
  p <- get ;; put (set_pos_un p (pos_conf p)).

Definition Parser_confirm : M Parser unit :=
  p <- get ;; put (set_pos_conf p (pos_un p)).

(** The part of [Parser.string] after [expected] is known, for an input whose
    elements are of type [A]; [inj] says which kind of input the
    returned slice is. *)
Definition string_match {A} `{EqDec A} (inj : list A -> pinput)
    (inp expected : list A) : M Parser (option pinput) :=
  p <- get ;;
  let next := Py.slice inp (pos_un p) (pos_un p + Py.len expected) in
  if Py.seq_eqb expected next
  then put (set_pos_un p (pos_un p + Py.len expected)) ;; ret (Some (inj next))
  else ret None.

Definition Parser_string (s : list ascii) : M Parser (option pinput) :=
  p <- get ;;
  match p_input p with
  | InStr i => string_match InStr i s
  | InSeq i =>
      match codec p with
      | None => raise AttributeError
      | Some c => string_match InSeq i (map (native c) s)
      end
  end.

(** ** Sequences of calls

    The states of a [PState] are those its methods and the parsing
    functions leave, starting from the constructor; a caller may catch a
    [ParseError] and go on, so the state after a call is the one the
    call leaves whether it returns or raises. *)

Inductive PState_call : Type :=
| CallConsume (n : Z)
| CallPeek
| CallGenerate (x : frag)
| CallOutput
| CallError (message : string)
| CallByte (genf : option (E -> frag)) (err : option string)
| CallToktrans (toktab : list (list E * frag)).

Definition after (c : PState_call) (p : PState) : PState :=
  match c with
  | CallConsume n => snd (consume n p)
  | CallPeek => snd (peek p)
  | CallGenerate x => snd (generate x p)
  | CallOutput => snd (output p)
  | CallError message => snd (error (A:=unit) message p)
  | CallByte genf err => snd (byte genf err p)
  | CallToktrans toktab => snd (toktrans toktab p)
  end.

Definition after_all (cs : list PState_call) (p : PState) : PState :=
  fold_left (fun q c => after c q) cs p.

Inductive Parser_call : Type :=
| CallStart
| CallConfirm
| CallString (s : list ascii).

Definition Parser_after (c : Parser_call) (p : Parser) : Parser :=
  match c with
  | CallStart => snd (Parser_start p)
  | CallConfirm => snd (Parser_confirm p)
  | CallString s => snd (Parser_string s p)
  end.

Definition Parser_after_all (cs : list Parser_call) (p : Parser) : Parser :=
  fold_left (fun q c => Parser_after c q) cs p.

(** What a call may do to a [PState]: the input stays, the position
    stays within the input if it was, and the output list stays or gets
    one accepted fragment more. *)
Definition step_ok (p p' : PState) : Prop :=
  input p' = input p
  /\ (pos p <= Py.len (input p) -> pos p' <= Py.len (input p'))
  /\ (olist p' = olist p
      \/ exists x, accepts p x = true /\ olist p' = olist p ++ [x]).

(** Every fragment is an instance of the class of the first one. *)
Definition homogeneous (l : list frag) : Prop :=
  match l with
  | [] => True
  | first :: _ => Forall (fun x => isinstance x (ftype first) = true) l
  end.

End Framework.

(** [phrase] occurs in [msg]. *)
Definition occurs_in (phrase msg : string) : Prop :=
  exists pre post : string, msg = (pre ++ phrase ++ post)%string.

(** ** The framework at [str] input with [str] and [bytes] fragments *)

Module Str.

Fixpoint class_name (c : pyclass) : string :=
  match c with
  | Cstr => "str"
  | Cbytes => "bytes"
  | Csub n p => ("sub" ++ Py.str_int (Z.of_nat n) ++ "_" ++ class_name p)%string
  end.

#[export] Instance repr_str : Repr (list ascii) :=
  fun l => ("'" ++ string_of_list_ascii l ++ "'")%string.

#[export] Instance repr_class : Repr pyclass :=
  fun c => ("<class '" ++ class_name c ++ "'>")%string.

#[export] Instance repr_frag : Repr (@frag ascii) :=
  fun f => match builtin_of (ftype f) with
           | Cbytes => ("b" ++ repr (fdata f))%string
           | _ => repr (fdata f)
           end.

(** A [str] fragment, a [bytes] fragment, and a fresh state on a [str]. *)
Definition s (x : string) : @frag ascii := Frag Cstr (Py.str x).

Definition b (x : string) : @frag ascii := Frag Cbytes (Py.str x).

Definition state (i : string) : @PState ascii ascii :=
  PState_init (Py.str i) None.

Definition parser (i : string) : @Parser ascii ascii :=
  Parser_init (InStr (Py.str i)) None.

End Str.

(** ** Kinds of calls and of input *)

Section Kinds.

Context {E O : Type}.

(** A call that asks [consume] for a count of elements, not for a
    negative number. *)
Definition nonneg_call (c : @PState_call E O) : Prop :=
match c with
| CallConsume n => 0 <= n
| _ => True
end.

(** [len(self.input)] for the input of a [Parser]. *)
Definition pinput_len (i : @pinput E) : Z :=
match i with
| InStr s => Py.len s
| InSeq l => Py.len l
end.

(** The next [len(s)] elements from the unconfirmed parse point are the
    literal [s], converted with [codec.native] when the input is not a
    [str]. *)
Definition Parser_matches (p : @Parser E O) (s : list ascii) : Prop :=
match p_input p with
| InStr i =>
    firstn (List.length s) (skipn (Z.to_nat (pos_un p)) i) = s
| InSeq i =>
    exists c, codec p = Some c
      /\ firstn (List.length s) (skipn (Z.to_nat (pos_un p)) i)
         = map (native c) s
end.


End Kinds.

(** * Properties *)

(** ** Python sequences *)

Section PyFacts.

Context {A : Type}.

Lemma len_nonneg (l : list A) : 0 <= Py.len l.
Proof. unfold Py.len. lia. Qed.

Lemma adjust_id (L i : Z) : 0 <= i <= L -> Py.adjust L i = i.
Proof.
  intros Hi. unfold Py.adjust.
  destruct (i <? 0) eqn:E1; [apply Z.ltb_lt in E1; lia|].
  rewrite E1.
  destruct (L <? i) eqn:E2; [apply Z.ltb_lt in E2; lia|reflexivity].
Qed.

Lemma adjust_range (L i : Z) : 0 <= L -> 0 <= Py.adjust L i <= L.
Proof.
  intros HL. unfold Py.adjust.
  destruct (i <? 0) eqn:E1;
    match goal with |- context [if ?c <? 0 then _ else _] =>
      destruct (c <? 0) eqn:E2 end;
    try lia;
    match goal with |- context [if L <? ?c then _ else _] =>
      destruct (L <? c) eqn:E3 end;
    try apply Z.ltb_ge in E2; try apply Z.ltb_ge in E3; lia.
Qed.

Lemma slice_in_range (l : list A) (i j : Z) :
  0 <= i -> i <= j -> j <= Py.len l ->
  Py.slice l i j = firstn (Z.to_nat (j - i)) (skipn (Z.to_nat i) l).
Proof.
  intros Hi Hij Hj. unfold Py.slice.
  rewrite !adjust_id by lia. reflexivity.
Qed.

Lemma len_sublist (l : list A) (i n : Z) :
  0 <= i -> 0 <= n -> i + n <= Py.len l ->
  Py.len (firstn (Z.to_nat n) (skipn (Z.to_nat i) l)) = n.
Proof.
  unfold Py.len. intros Hi Hn Hin.
  rewrite length_firstn, length_skipn. lia.
Qed.

Lemma nth_error_sublist (l : list A) (i n k : nat) :
  (k < n)%nat ->
  nth_error (firstn n (skipn i l)) k = nth_error l (i + k).
Proof.
  intros Hk. rewrite nth_error_firstn, nth_error_skipn.
  destruct (Nat.ltb_spec k n); [reflexivity|lia].
Qed.

(** A window of [k] elements from a position [i >= 0], also when it
    reaches past the end of [l]. *)
Lemma slice_window (l : list A) (i k : Z) :
  0 <= i -> 0 <= k ->
  Py.slice l i (i + k) = firstn (Z.to_nat k) (skipn (Z.to_nat i) l).
Proof.
  intros Hi Hk. pose proof (len_nonneg l) as HL.
  unfold Py.slice, Py.adjust.
  destruct (i <? 0) eqn:E1; [apply Z.ltb_lt in E1; lia|]. rewrite E1.
  destruct (i + k <? 0) eqn:E2; [apply Z.ltb_lt in E2; lia|]. rewrite E2.
  destruct (Py.len l <? i) eqn:E3; destruct (Py.len l <? i + k) eqn:E4;
    try apply Z.ltb_lt in E3; try apply Z.ltb_lt in E4;
    try apply Z.ltb_ge in E3; try apply Z.ltb_ge in E4; try lia.
  - replace (Z.to_nat (Py.len l - Py.len l)) with 0%nat by lia.
    rewrite (skipn_all2 (n:=Z.to_nat i)) by (unfold Py.len in *; lia).
    now rewrite firstn_nil.
  - rewrite !firstn_all2; try reflexivity;
      rewrite length_skipn; unfold Py.len in *; lia.
  - now replace (i + k - i) with k by lia.
Qed.

Lemma slice_from_in_range (l : list A) (i : Z) :
  0 <= i <= Py.len l -> Py.slice_from l i = skipn (Z.to_nat i) l.
Proof. intros Hi. unfold Py.slice_from. now rewrite adjust_id. Qed.

Lemma len_slice_from (l : list A) (i : Z) :
  Py.len (Py.slice_from l i) = Py.len l - Py.adjust (Py.len l) i.
Proof.
  unfold Py.slice_from, Py.len at 1. rewrite length_skipn.
  pose proof (adjust_range (Py.len l) i (len_nonneg l)).
  unfold Py.len in *. lia.
Qed.

Lemma join_data_empty (items : list (list A)) :
  Py.join_data [] items = List.concat items.
Proof.
  induction items as [|x [|y rest] IH]; simpl in *.
  - reflexivity.
  - now rewrite app_nil_r.
  - now rewrite IH.
Qed.

Context `{EqDec A}.

Lemma startswith_app (l x : list A) :
  Py.startswith l x = true <-> exists t, l = x ++ t.
Proof.
  revert l. induction x as [|b x IH]; intros l; simpl.
  - split; [intros _; now exists l|reflexivity].
  - destruct l as [|a l].
    + split; [discriminate|intros [t Ht]; discriminate].
    + destruct (eq_dec a b) as [->|Hne].
      * rewrite IH. split; intros [t Ht]; exists t; congruence.
      * split; [discriminate|intros [t Ht]; congruence].
Qed.

Lemma startswith_len (l x : list A) :
  Py.startswith l x = true -> Py.len x <= Py.len l.
Proof.
  intros [t ->]%startswith_app. unfold Py.len.
  rewrite length_app. lia.
Qed.

Lemma seq_eqb_eq (l m : list A) : Py.seq_eqb l m = true <-> l = m.
Proof.
  revert m. induction l as [|a l IH]; intros [|b m]; simpl;
    try (split; [reflexivity + discriminate|reflexivity + discriminate]).
  destruct (eq_dec a b) as [->|Hne].
  - rewrite IH. split; congruence.
  - split; [discriminate|congruence].
Qed.

End PyFacts.

(** ** [PState]: consuming input *)

Section ConsumeFacts.

Context {E O : Type} `{EqDec E}.
Context `{Repr (list E)} `{Repr (@frag O)} `{Repr pyclass}.

(** [consume] within the input: only [pos] moves. *)
Lemma consume_ok (p : @PState E O) (n : Z) :
  pos p + n <= Py.len (input p) ->
  consume n p =
    (Ret (Py.slice (input p) (pos p) (pos p + n)), set_pos p (pos p + n)).
Proof.
  intros Hle. unfold consume, bind, get, put, ret. simpl.
  destruct (pos p + n >? Py.len (input p)) eqn:Hgt.
  - apply Z.gtb_lt in Hgt. lia.
  - simpl. now replace (pos p + n - n) with (pos p) by lia.
Qed.

(** [consume] past the end: the error is raised before [pos] moves. *)
Lemma consume_past_end (p : @PState E O) (n : Z) :
  pos p + n > Py.len (input p) ->
  exists msg, consume n p = (Raise (ParseError msg), p).
Proof.
  intros Hgt. unfold consume, bind, get. simpl.
  destruct (pos p + n >? Py.len (input p)) eqn:Hb.
  - unfold error, raise. eexists. reflexivity.
  - rewrite Z.gtb_ltb in Hb. apply Z.ltb_ge in Hb. lia.
Qed.

(** [pos <= len(input)] is kept by [consume], whatever its argument. *)
Lemma consume_pos_le (p p' : @PState E O) (n : Z) (r : outcome (list E)) :
  pos p <= Py.len (input p) ->
  consume n p = (r, p') ->
  pos p' <= Py.len (input p') /\ input p' = input p /\ olist p' = olist p.
Proof.
  intros Hinv Hrun.
  destruct (Z_le_gt_dec (pos p + n) (Py.len (input p))) as [Hle|Hgt].
  - rewrite (consume_ok _ _ Hle) in Hrun. inversion Hrun; subst. simpl. auto.
  - destruct (consume_past_end _ _ Hgt) as [msg Hmsg].
    rewrite Hmsg in Hrun. inversion Hrun; subst. auto.
Qed.

(** C2. For a state with [0 <= pos] and a count [0 <= n]: when
    [pos + n <= len(input)], [consume(n)] returns the [n] elements that
    start at the old position (the [k]-th returned element is the input
    element at [pos + k]) and leaves the state with [pos] advanced by
    exactly [n] and nothing else changed; when [pos + n > len(input)] it
    raises a [ParseError] and the state, so the position, is the one
    before the call. *)
Theorem consume_contract (p : @PState E O) (n : Z) :
  (0 <= pos p -> 0 <= n -> pos p + n <= Py.len (input p) ->
   exists c,
     consume n p = (Ret c, set_pos p (pos p + n))
     /\ pos (snd (consume n p)) = pos p + n
     /\ Py.len c = n
     /\ forall k, (k < Z.to_nat n)%nat ->
          nth_error c k = nth_error (input p) (Z.to_nat (pos p) + k))
  /\ (pos p + n > Py.len (input p) ->
      exists msg,
        consume n p = (Raise (ParseError msg), p)
        /\ pos (snd (consume n p)) = pos p).
Proof.
  split.
  - intros Hp Hn Hle.
    exists (firstn (Z.to_nat n) (skipn (Z.to_nat (pos p)) (input p))).
    rewrite consume_ok by assumption.
    rewrite slice_in_range by lia.
    replace (pos p + n - pos p) with n by lia.
    repeat split.
    + now apply len_sublist.
    + intros k Hk. now apply nth_error_sublist.
  - intros Hgt. destruct (consume_past_end p n Hgt) as [msg Hmsg].
    exists msg. rewrite Hmsg. auto.
Qed.

End ConsumeFacts.

Import Str.

Lemma consume_contract_witness :
  (exists c,
      consume 2 (state "hello") = (Ret c, set_pos (state "hello") 2)
      /\ pos (snd (consume 2 (state "hello"))) = 2
      /\ Py.len c = 2
      /\ forall k, (k < 2)%nat ->
           nth_error c k = nth_error (Py.str "hello") k)
  /\ (exists msg,
        consume 6 (state "hello") = (Raise (ParseError msg), state "hello")
        /\ pos (snd (consume 6 (state "hello"))) = 0).
Proof.
  split.
  - apply (proj1 (consume_contract (state "hello") 2)); vm_compute; congruence.
  - apply (proj2 (consume_contract (state "hello") 6)); reflexivity.
Defined.

(** ** [PState]: errors and their diagnostic *)

Section ErrorFacts.

Context {E O : Type} `{EqDec E}.
Context `{Repr (list E)} `{Repr (@frag O)} `{Repr pyclass}.

(** [error] always raises, with the message first, and changes nothing. *)
Lemma error_raises {A} (message : string) (p : @PState E O) :
  error (A:=A) message p =
    (Raise (ParseError (message ++ " " ++ PState_str p)%string), p).
Proof. reflexivity. Qed.

Lemma error_occurs {A} (message : string) (p : @PState E O) :
  exists msg, error (A:=A) message p = (Raise (ParseError msg), p)
              /\ occurs_in message msg.
Proof.
  eexists. split; [apply error_raises|].
  exists ""%string. eexists. reflexivity.
Qed.

(** The window ahead is right for every position [pos >= 0]. *)
Lemma ahead_ok (p : @PState E O) :
  0 <= pos p ->
  ahead p = firstn 12 (skipn (Z.to_nat (pos p)) (input p)).
Proof. intros Hp. unfold ahead. now rewrite slice_window by lia. Qed.

(** The window behind is right once twelve elements are consumed. *)
Lemma behind_ok (p : @PState E O) :
  12 <= pos p <= Py.len (input p) ->
  behind p = firstn 12 (skipn (Z.to_nat (pos p - 12)) (input p)).
Proof.
  intros Hp. unfold behind. rewrite slice_in_range by lia.
  now replace (pos p - (pos p - 12)) with 12 by lia.
Qed.

(** Before that the lower bound [pos - 12] is negative and the slice
    counts it from the end of the input: on an input of twelve elements
    or more the window is empty. *)
Lemma behind_wraps (p : @PState E O) :
  0 <= pos p < 12 -> 12 <= Py.len (input p) ->
  pos p <= Py.len (input p) ->
  behind p = [].
Proof.
  intros Hp HL Hle. unfold behind, Py.slice.
  rewrite (adjust_id _ (pos p)) by lia.
  unfold Py.adjust.
  destruct (pos p - 12 <? 0) eqn:E1; [|apply Z.ltb_ge in E1; lia].
  destruct (pos p - 12 + Py.len (input p) <? 0) eqn:E2;
    [apply Z.ltb_lt in E2; lia|].
  destruct (Py.len (input p) <? pos p - 12 + Py.len (input p)) eqn:E3;
    [apply Z.ltb_lt in E3; lia|].
  replace (Z.to_nat (pos p - (pos p - 12 + Py.len (input p)))) with 0%nat
    by lia.
  reflexivity.
Qed.

End ErrorFacts.

(** C9. On the input ["abcdefghijklmnopqrst"] with five elements consumed,
    [error("x")] raises the [ParseError] with the text shown: the message,
    the position 5 and the twelve elements ahead are there, but the window
    behind is empty, although the elements from [max(pos - 12, 0)] up to
    the position are ["abcde"]. *)
Theorem error_behind_window_lost :
  let p := snd (consume 5 (state "abcdefghijklmnopqrst")) in
  pos p = 5
  /\ error (A:=unit) "x" p =
       (Raise (ParseError "x at 5:'fghijklmnopq' after …'' …[]"), p)
  /\ behind p = []
  /\ Py.slice (input p) (Z.max (pos p - 12) 0) (pos p) = Py.str "abcde".
Proof. vm_compute. repeat split. Qed.

(** ** [PState]: generating output *)

Section GenerateFacts.

Context {E O : Type} `{EqDec E}.
Context `{Repr (list E)} `{Repr (@frag O)} `{Repr pyclass}.

Lemma generate_accepted (x : @frag O) (p : @PState E O) :
  accepts p x = true ->
  generate x p = (Ret tt, set_olist p (olist p ++ [x])).
Proof.
  unfold accepts, generate, bind, get, put. simpl.
  destruct (olist p) as [|first rest]; [reflexivity|].
  now intros ->.
Qed.

Lemma generate_rejected (x : @frag O) (p : @PState E O) :
  accepts p x = false ->
  exists msg, generate x p = (Raise (ParseError msg), p).
Proof.
  unfold accepts, generate, bind, get. simpl.
  destruct (olist p) as [|first rest]; [discriminate|].
  intros ->. eexists. apply error_raises.
Qed.

(** [generate] never moves the position and keeps the first fragment. *)
Lemma generate_frame (x : @frag O) (p p' : @PState E O) (r : outcome unit) :
  generate x p = (r, p') ->
  input p' = input p /\ pos p' = pos p
  /\ (forall first rest, olist p = first :: rest ->
      exists rest', olist p' = first :: rest').
Proof.
  intros Hrun. destruct (accepts p x) eqn:Hacc.
  - rewrite (generate_accepted _ _ Hacc) in Hrun. inversion Hrun; subst.
    simpl. repeat split. intros first rest ->. now exists (rest ++ [x]).
  - destruct (generate_rejected _ _ Hacc) as [msg Hmsg].
    rewrite Hmsg in Hrun. inversion Hrun; subst.
    repeat split. intros first rest ->. now exists rest.
Qed.

End GenerateFacts.

(** ** [byte] *)

Section ByteFacts.

Context {E O : Type} `{EqDec E}.
Context `{Repr (list E)} `{Repr (@frag O)} `{Repr pyclass}.

Lemma consume_first_ok (p : @PState E O) :
  0 <= pos p < Py.len (input p) ->
  exists x,
    nth_error (input p) (Z.to_nat (pos p)) = Some x
    /\ consume_first p = (Ret x, set_pos p (pos p + 1)).
Proof.
  intros Hp. unfold consume_first, bind.
  rewrite consume_ok by lia. rewrite slice_in_range by lia.
  replace (pos p + 1 - pos p) with 1 by lia.
  destruct (nth_error (input p) (Z.to_nat (pos p))) as [x|] eqn:Hx.
  - exists x. split; [reflexivity|].
    rewrite <- hd_error_skipn in Hx.
    destruct (skipn (Z.to_nat (pos p)) (input p)) as [|y rest];
      [discriminate|].
    simpl in Hx. injection Hx as ->. reflexivity.
  - apply nth_error_None in Hx. unfold Py.len in Hp. lia.
Qed.

Lemma finished_false (p : @PState E O) :
  pos p < Py.len (input p) -> finished p = false.
Proof.
  intros Hp. unfold finished. rewrite Z.geb_leb. apply Z.leb_gt. lia.
Qed.

(** C6. At end of input ([finished]), [byte] with the default [err]
    raises a [ParseError] whose message contains "unexpected end of
    input", and [byte] with [err=None] returns [None]; neither changes
    the state, whatever [genf] is. When input remains ([0 <= pos <
    len(input)]), [byte] without [genf] returns the element at the
    position and advances the position by one, changing nothing else;
    with a [genf] whose fragment the output list accepts, it does the
    same and appends that fragment. *)
Theorem byte_fail_versus_error (p : @PState E O) :
  (finished p = true ->
   forall genf,
     (exists msg,
        byte genf default_err p = (Raise (ParseError msg), p)
        /\ occurs_in "unexpected end of input" msg)
     /\ byte genf None p = (Ret None, p))
  /\ (0 <= pos p < Py.len (input p) ->
      exists x,
        nth_error (input p) (Z.to_nat (pos p)) = Some x
        /\ (forall err,
              byte None err p = (Ret (Some x), set_pos p (pos p + 1)))
        /\ (forall g err,
              accepts p (g x) = true ->
              byte (Some g) err p =
                (Ret (Some x),
                 set_olist (set_pos p (pos p + 1)) (olist p ++ [g x])))).
Proof.
  split.
  - intros Hfin genf. split.
    + unfold byte, bind, get, default_err. rewrite Hfin.
      rewrite error_raises. eexists. split; [reflexivity|].
      exists ""%string. eexists. reflexivity.
    + unfold byte, bind, get. now rewrite Hfin.
  - intros Hp. destruct (consume_first_ok p Hp) as (x & Hx & Hc).
    exists x. split; [assumption|].
    pose proof (finished_false p (proj2 Hp)) as Hfin.
    split.
    + intros err. unfold byte, bind, get. rewrite Hfin.
      now rewrite Hc.
    + intros g err Hacc. unfold byte, bind, get. rewrite Hfin.
      rewrite Hc. rewrite generate_accepted by exact Hacc. reflexivity.
Qed.

End ByteFacts.

Lemma byte_fail_versus_error_witness :
  ((exists msg,
      byte None default_err (state "") = (Raise (ParseError msg), state "")
      /\ occurs_in "unexpected end of input" msg)
   /\ byte None None (state "") = (Ret None, state ""))
  /\ (exists x,
        nth_error (Py.str "xy") 0 = Some x
        /\ (forall err,
              byte None err (state "xy") =
                (Ret (Some x), set_pos (state "xy") 1))
        /\ (forall g err,
              accepts (state "xy") (g x) = true ->
              byte (Some g) err (state "xy") =
                (Ret (Some x),
                 set_olist (set_pos (state "xy") 1) [g x]))).
Proof.
  split.
  - apply (proj1 (byte_fail_versus_error (state ""))). reflexivity.
  - apply (proj2 (byte_fail_versus_error (state "xy"))). vm_compute.
    split; congruence.
Defined.

(** ** Classes *)

Lemma pyclass_eqb_eq (c d : pyclass) : pyclass_eqb c d = true <-> c = d.
Proof.
  revert d. induction c as [| |n p IH]; intros [| |m q]; simpl;
    try (split; [reflexivity + discriminate|reflexivity + discriminate]).
  rewrite andb_true_iff, Nat.eqb_eq, IH. split.
  - now intros [-> ->].
  - intros [= -> ->]. auto.
Qed.

Lemma issubclass_unfold (c t : pyclass) :
  issubclass c t = pyclass_eqb c t || proper_subclass c t.
Proof. destruct c; reflexivity. Qed.

Lemma issubclass_refl (c : pyclass) : issubclass c c = true.
Proof.
  rewrite issubclass_unfold. apply orb_true_iff. left.
  now apply pyclass_eqb_eq.
Qed.

(** [issubclass(c, t)]: [c] is [t], or a proper subclass of [t]. *)
Lemma issubclass_split (c t : pyclass) :
  issubclass c t = true <-> c = t \/ proper_subclass c t = true.
Proof.
  now rewrite issubclass_unfold, orb_true_iff, pyclass_eqb_eq.
Qed.

Lemma issubclass_builtin (c t : pyclass) :
  issubclass c t = true -> builtin_of c = builtin_of t.
Proof.
  induction c as [| |n p IH]; intros [->|Hsub]%issubclass_split;
    try reflexivity; try discriminate.
  simpl in *. now apply IH.
Qed.

Lemma issubclass_builtin_of (c : pyclass) : issubclass c (builtin_of c) = true.
Proof.
  induction c as [| |n p IH]; try reflexivity.
  rewrite issubclass_unfold. simpl. rewrite IH. apply orb_true_r.
Qed.

(** ** What calls keep *)

Section Invariants.

Context {E O : Type} `{EqDec E}.
Context `{Repr (list E)} `{Repr (@frag O)} `{Repr pyclass}.

Lemma step_refl (p : @PState E O) : step_ok p p.
Proof. unfold step_ok. auto. Qed.

(** Two steps, the first of which leaves the output list alone. *)
Lemma step_then (p p1 p2 : @PState E O) :
  step_ok p p1 -> olist p1 = olist p -> step_ok p1 p2 -> step_ok p p2.
Proof.
  intros (Hi1 & Hp1 & _) Ho (Hi2 & Hp2 & Ho2). unfold step_ok.
  repeat split.
  - congruence.
  - auto.
  - unfold accepts in *. rewrite Ho in Ho2. exact Ho2.
Qed.

Lemma consume_state (n : Z) (p : @PState E O) :
  snd (consume n p) = p \/ 
  (pos p + n <= Py.len (input p) /\ snd (consume n p) = set_pos p (pos p + n)).
Proof.
  destruct (Z_le_gt_dec (pos p + n) (Py.len (input p))) as [Hle|Hgt].
  - right. now rewrite consume_ok.
  - left. destruct (consume_past_end p n Hgt) as [msg ->]. reflexivity.
Qed.

Lemma consume_step (n : Z) (p : @PState E O) :
  step_ok p (snd (consume n p)).
Proof.
  destruct (consume_state n p) as [->|[Hle ->]]; [apply step_refl|].
  unfold step_ok. simpl. auto.
Qed.

Lemma consume_olist (n : Z) (p : @PState E O) :
  olist (snd (consume n p)) = olist p.
Proof. now destruct (consume_state n p) as [->|[Hle ->]]. Qed.

Lemma generate_step (x : @frag O) (p : @PState E O) :
  step_ok p (snd (generate x p)).
Proof.
  destruct (accepts p x) eqn:Hacc.
  - rewrite generate_accepted by assumption. unfold step_ok. simpl.
    repeat split; auto. right. now exists x.
  - destruct (generate_rejected x p Hacc) as [msg ->]. apply step_refl.
Qed.

Lemma consume_first_state (p : @PState E O) :
  snd (consume_first p) = snd (consume 1 p).
Proof.
  unfold consume_first, bind. destruct (consume 1 p) as [[c|e] p1];
    [|reflexivity].
  simpl. now destruct (Py.index c 0).
Qed.

Lemma byte_step (genf : option (E -> @frag O)) (err : option string)
    (p : @PState E O) :
  step_ok p (snd (byte genf err p)).
Proof.
  unfold byte, bind, get.
  destruct (finished p).
  - destruct err; apply step_refl.
  - pose proof (consume_first_state p) as Hs.
    destruct (consume_first p) as [[x|e] p1]; simpl in Hs; subst p1.
    + apply step_then with (p1 := snd (consume 1 p)).
      * apply consume_step.
      * apply consume_olist.
      * destruct genf as [g|]; [|apply step_refl].
        pose proof (generate_step (g x) (snd (consume 1 p))) as Hg.
        destruct (generate (g x) (snd (consume 1 p))) as [[u|e] p2];
          exact Hg.
    + apply consume_step.
Qed.

Lemma toktrans_step (toktab : list (list E * @frag O)) (p : @PState E O) :
  step_ok p (snd (toktrans toktab p)).
Proof.
  induction toktab as [|[x y] toktab IH]; simpl.
  - apply step_refl.
  - unfold bind at 1, get.
    destruct (Py.startswith (remain p) x); [|exact IH].
    unfold bind.
    pose proof (consume_step (Py.len x) p) as Hc.
    pose proof (consume_olist (Py.len x) p) as Ho.
    destruct (consume (Py.len x) p) as [[c|e] p1]; simpl in *;
      [|exact Hc].
    apply step_then with (p1 := p1); try assumption.
    pose proof (generate_step y p1) as Hg.
    destruct (generate y p1) as [[u|e] p2]; exact Hg.
Qed.

Lemma after_step (c : @PState_call E O) (p : @PState E O) :
  step_ok p (after c p).
Proof.
  destruct c; simpl.
  - apply consume_step.
  - unfold peek, bind, get. destruct (pos p >=? Py.len (input p)).
    + apply step_refl.
    + destruct (Py.index (input p) (pos p)); apply step_refl.
  - apply generate_step.
  - unfold output, bind, get. destruct (olist p) as [|first rest].
    + apply step_refl.
    + unfold lift. destruct (join _ _); apply step_refl.
  - apply step_refl.
  - apply byte_step.
  - apply toktrans_step.
Qed.

(** The first fragment appended stays the first. *)
Lemma step_first (p p' : @PState E O) (first : @frag O) rest :
  step_ok p p' -> olist p = first :: rest ->
  exists rest', olist p' = first :: rest'.
Proof.
  intros (_ & _ & [Ho|(x & _ & Ho)]) Hl; rewrite Ho, Hl.
  - now exists rest.
  - now exists (rest ++ [x]).
Qed.

Lemma after_all_first (cs : list (@PState_call E O)) (p : @PState E O)
    (first : @frag O) rest :
  olist p = first :: rest ->
  exists rest', olist (after_all cs p) = first :: rest'.
Proof.
  revert p rest. induction cs as [|c cs IH]; intros p rest Hl; simpl.
  - now exists rest.
  - destruct (step_first _ _ _ _ (after_step c p) Hl) as [rest' Hl'].
    now apply IH with (rest := rest').
Qed.

Lemma step_homogeneous (p p' : @PState E O) :
  step_ok p p' -> homogeneous (olist p) -> homogeneous (olist p').
Proof.
  intros (_ & _ & [Ho|(x & Hacc & Ho)]) Hh; rewrite Ho; [assumption|].
  unfold accepts in Hacc. destruct (olist p) as [|first rest]; simpl.
  - constructor; [|constructor]. apply issubclass_refl.
  - simpl in Hh. inversion Hh as [|? ? Hf Hr]; subst.
    constructor; [assumption|].
    apply Forall_app. split; [assumption|]. now constructor.
Qed.

(** Every state reached from the constructor has its position within
    the input and a homogeneous output list. *)
Lemma after_all_invariant (cs : list (@PState_call E O)) (p : @PState E O) :
  pos p <= Py.len (input p) -> homogeneous (olist p) ->
  pos (after_all cs p) <= Py.len (input (after_all cs p))
  /\ homogeneous (olist (after_all cs p)).
Proof.
  revert p. induction cs as [|c cs IH]; intros p Hp Hh; simpl; [auto|].
  pose proof (after_step c p) as Hs.
  apply IH.
  - destruct Hs as (_ & Hpos & _). auto.
  - eapply step_homogeneous; eassumption.
Qed.

Lemma reachable_invariant (cs : list (@PState_call E O)) (i : list E) cset :
  let p := after_all cs (PState_init i cset) in
  pos p <= Py.len (input p) /\ homogeneous (olist p).
Proof.
  apply after_all_invariant; simpl; [apply len_nonneg|exact I].
Qed.

End Invariants.

(** ** The type family of the output *)

Section OutputFacts.

Context {E O : Type} `{EqDec E}.
Context `{Repr (list E)} `{Repr (@frag O)} `{Repr pyclass}.

(** C4. From a state with an empty output list, [generate(x)] succeeds
    and makes [x] the first fragment. After any calls that follow, a
    [generate(y)] with [y] of a class that is neither the class of [x]
    nor a proper subclass of it raises a [ParseError] and leaves the
    state, so the output list, as it was; with [y] of the class of [x]
    or of a proper subclass of it, it returns and appends [y]. *)
Theorem generate_type_family (p : @PState E O) (x y : @frag O)
    (cs : list (@PState_call E O)) :
  olist p = [] ->
  let p1 := snd (generate x p) in
  let q := after_all cs p1 in
  generate x p = (Ret tt, p1)
  /\ olist p1 = [x]
  /\ (ftype y <> ftype x ->
      proper_subclass (ftype y) (ftype x) = false ->
      exists msg,
        generate y q = (Raise (ParseError msg), q)
        /\ olist (snd (generate y q)) = olist q)
  /\ (ftype y = ftype x \/ proper_subclass (ftype y) (ftype x) = true ->
      generate y q = (Ret tt, set_olist q (olist q ++ [y]))).
Proof.
  intros Hempty p1 q.
  assert (Hacc : accepts p x = true) by (unfold accepts; now rewrite Hempty).
  assert (Hgen : generate x p = (Ret tt, p1)).
  { unfold p1. now rewrite generate_accepted. }
  assert (Hp1 : olist p1 = [x]).
  { unfold p1. rewrite generate_accepted by assumption. simpl.
    now rewrite Hempty. }
  destruct (after_all_first cs p1 x [] Hp1) as [rest Hq]. fold q in Hq.
  assert (Hy : accepts q y = issubclass (ftype y) (ftype x)).
  { unfold accepts. now rewrite Hq. }
  repeat split; try assumption.
  - intros Hne Hnot.
    assert (Hrej : accepts q y = false).
    { rewrite Hy. destruct (issubclass (ftype y) (ftype x)) eqn:Hs;
        [|reflexivity].
      apply issubclass_split in Hs. destruct Hs; congruence. }
    destruct (generate_rejected y q Hrej) as [msg Hmsg].
    exists msg. now rewrite Hmsg.
  - intros Hsub. apply generate_accepted. rewrite Hy.
    now apply issubclass_split.
Qed.

(** [join] on a homogeneous list with a fresh instance of the class of
    the first fragment: the concatenation, in order. *)
Lemma join_homogeneous (first : @frag O) (rest : list (@frag O)) :
  homogeneous (first :: rest) ->
  join (new (ftype first)) (first :: rest) =
    Ret (Frag (builtin_of (ftype first))
           (List.concat (map fdata (first :: rest)))).
Proof.
  intros Hh. unfold join.
  replace (forallb _ (first :: rest)) with true.
  - cbn [new fdata ftype]. now rewrite join_data_empty.
  - symmetry. apply forallb_forall. intros z Hz.
    simpl in Hh. rewrite Forall_forall in Hh. specialize (Hh z Hz).
    unfold isinstance in *. cbn [new ftype].
    rewrite <- (issubclass_builtin _ _ Hh). apply issubclass_builtin_of.
Qed.

Lemma output_homogeneous (p : @PState E O) :
  homogeneous (olist p) ->
  output p =
    (Ret match olist p with
         | [] => None
         | first :: _ =>
             Some (Frag (builtin_of (ftype first))
                     (List.concat (map fdata (olist p))))
         end, p).
Proof.
  intros Hh. unfold output, bind, get, lift.
  destruct (olist p) as [|first rest]; [reflexivity|].
  now rewrite join_homogeneous.
Qed.

(** C8. In every state reached from the constructor by calls of the
    methods and parsing functions, [output()] returns [None] when the
    output list is empty, and otherwise the result of joining the list
    with a new instance of the class of the first fragment, which is the
    concatenation of the data of all fragments in the order of the list
    (an object of the built-in class the first fragment derives from);
    the state is not changed. *)
Theorem output_joins (cs : list (@PState_call E O)) (i : list E)
    (cset : option (@Charset E)) :
  let p := after_all cs (PState_init i cset) in
  output p =
    (Ret match olist p with
         | [] => None
         | first :: _ =>
             Some (Frag (builtin_of (ftype first))
                     (List.concat (map fdata (olist p))))
         end, p)
  /\ match olist p with
     | [] => True
     | first :: _ =>
         join (new (ftype first)) (olist p) =
           Ret (Frag (builtin_of (ftype first))
                  (List.concat (map fdata (olist p))))
     end.
Proof.
  intros p. destruct (reachable_invariant cs i cset) as [_ Hh].
  fold p in Hh. split.
  - now apply output_homogeneous.
  - destruct (olist p) as [|first rest] eqn:Hl; [exact I|].
    now apply join_homogeneous.
Qed.

End OutputFacts.

Lemma generate_type_family_witness :
  let p1 := snd (generate (Frag (Csub 1 Cstr) (Py.str "AB")) (state "abc")) in
  let q := after_all [CallConsume 1] p1 in
  generate (Frag (Csub 1 Cstr) (Py.str "AB")) (state "abc") = (Ret tt, p1)
  /\ olist p1 = [Frag (Csub 1 Cstr) (Py.str "AB")]
  /\ (exists msg,
        generate (s "x") q = (Raise (ParseError msg), q)
        /\ olist (snd (generate (s "x") q)) = olist q)
  /\ generate (Frag (Csub 2 (Csub 1 Cstr)) (Py.str "y")) q =
       (Ret tt,
        set_olist q (olist q ++ [Frag (Csub 2 (Csub 1 Cstr)) (Py.str "y")])).
Proof.
  pose proof (generate_type_family (state "abc")
                (Frag (Csub 1 Cstr) (Py.str "AB")) (s "x")
                [CallConsume 1] eq_refl) as (H1 & H2 & H3 & _).
  pose proof (generate_type_family (state "abc")
                (Frag (Csub 1 Cstr) (Py.str "AB"))
                (Frag (Csub 2 (Csub 1 Cstr)) (Py.str "y"))
                [CallConsume 1] eq_refl) as (_ & _ & _ & H4).
  intros p1 q. split; [exact H1|]. split; [exact H2|]. split.
  - apply H3; [discriminate|reflexivity].
  - apply H4. right. reflexivity.
Defined.

(** ** Sorting the token table *)

Section SortFacts.

Context {A : Type} (key : A -> Z).

Lemma insert_rev_perm (x : A) (l : list A) :
  Permutation (x :: l) (Py.insert_rev key x l).
Proof.
  induction l as [|y l IH]; simpl; [reflexivity|].
  destruct (key x <? key y); [|reflexivity].
  rewrite perm_swap. now apply perm_skip.
Qed.

Lemma sorted_rev_perm (l : list A) : Permutation l (Py.sorted_rev key l).
Proof.
  induction l as [|x l IH]; simpl; [reflexivity|].
  rewrite <- insert_rev_perm. now apply perm_skip.
Qed.

Lemma insert_rev_sorted (x : A) (l : list A) :
  StronglySorted (fun a b => key a >= key b) l ->
  StronglySorted (fun a b => key a >= key b) (Py.insert_rev key x l).
Proof.
  induction 1 as [|y l Hs IH Hy]; simpl.
  - constructor; constructor.
  - destruct (key x <? key y) eqn:Hlt.
    + apply Z.ltb_lt in Hlt. constructor; [assumption|].
      rewrite <- insert_rev_perm. constructor; [lia|assumption].
    + apply Z.ltb_ge in Hlt. constructor.
      * now constructor.
      * constructor; [lia|].
        eapply Forall_impl; [|exact Hy]. simpl. intros; lia.
Qed.

Lemma sorted_rev_sorted (l : list A) :
  StronglySorted (fun a b => key a >= key b) (Py.sorted_rev key l).
Proof.
  induction l as [|x l IH]; simpl; [constructor|].
  now apply insert_rev_sorted.
Qed.

(** In a list sorted this way the first item that passes a test has a
    key at least as large as every item that passes it. *)
Lemma find_first_sorted (f : A -> bool) (l : list A) :
  StronglySorted (fun a b => key a >= key b) l ->
  forall b, In b l -> f b = true ->
  exists a, find f l = Some a /\ key a >= key b.
Proof.
  induction 1 as [|a0 l Hs IH Ha]; intros b Hin Hb; [destruct Hin|].
  simpl. destruct (f a0) eqn:Hf.
  - exists a0. split; [reflexivity|].
    destruct Hin as [->|Hin]; [lia|].
    rewrite Forall_forall in Ha. now apply Ha.
  - destruct Hin as [->|Hin]; [congruence|]. now apply IH.
Qed.

End SortFacts.

(** ** [toktrans] *)

Section ToktransFacts.

Context {E O : Type} `{EqDec E}.
Context `{Repr (list E)} `{Repr (@frag O)} `{Repr pyclass}.

(** [toktrans] goes on with the first entry whose key the remaining
    input starts with. *)
Lemma toktrans_first_match (toktab : list (list E * @frag O))
    (p : @PState E O) :
  toktrans toktab p =
    match find (fun t => Py.startswith (remain p) (fst t)) toktab with
    | None => (Ret None, p)
    | Some (x, y) => (consume (Py.len x) ;; generate y ;; ret (Some x)) p
    end.
Proof.
  induction toktab as [|[x y] toktab IH]; simpl; [reflexivity|].
  unfold bind at 1, get.
  now destruct (Py.startswith (remain p) x).
Qed.

Lemma adjust_ge (L i : Z) : 0 <= L -> i <= L -> i <= Py.adjust L i.
Proof.
  intros HL Hi. unfold Py.adjust.
  destruct (i <? 0) eqn:E1;
    [apply Z.ltb_lt in E1|apply Z.ltb_ge in E1].
  - destruct (i + L <? 0); [lia|]. destruct (L <? i + L); lia.
  - rewrite (proj2 (Z.ltb_ge i 0) E1).
    destruct (L <? i) eqn:E2; [apply Z.ltb_lt in E2|]; lia.
Qed.

(** A key the remaining input starts with ends within the input. *)
Lemma remain_bound (p : @PState E O) (x : list E) :
  pos p <= Py.len (input p) ->
  Py.startswith (remain p) x = true ->
  pos p + Py.len x <= Py.len (input p).
Proof.
  intros Hp Hx. apply startswith_len in Hx. unfold remain in Hx.
  rewrite len_slice_from in Hx.
  pose proof (adjust_ge _ _ (len_nonneg (input p)) Hp). lia.
Qed.

(** The run of [toktrans] on a matching entry, in a state with its
    position within the input. *)
Lemma matched_run (p : @PState E O) (x : list E) (y : @frag O) :
  pos p <= Py.len (input p) ->
  Py.startswith (remain p) x = true ->
  (consume (Py.len x) ;; generate y ;; ret (Some x)) p =
    match generate y (set_pos p (pos p + Py.len x)) with
    | (Ret _, q) => (Ret (Some x), q)
    | (Raise e, q) => (Raise e, q)
    end.
Proof.
  intros Hp Hx. unfold bind at 1.
  rewrite consume_ok by now apply remain_bound.
  unfold bind, ret.
  now destruct (generate y (set_pos p (pos p + Py.len x))) as [[u|e] q].
Qed.

(** C10. In every state reached from the constructor, for every table:
    each entry whose key the remaining input starts with has
    [pos + len(key) <= len(input)], so the [consume(len(key))] of
    [toktrans] returns; and [toktrans] returns [None] when no key
    matches and otherwise ends as the [generate] of the first matching
    entry ends, called after the position advanced by [len(key)]: when
    [toktrans] raises, the error is the one of [generate]. *)
Theorem toktrans_consume_in_bounds (cs : list (@PState_call E O))
    (i : list E) (cset : option (@Charset E))
    (toktab : list (list E * @frag O)) :
  let p := after_all cs (PState_init i cset) in
  (forall x y, In (x, y) toktab ->
     Py.startswith (remain p) x = true ->
     pos p + Py.len x <= Py.len (input p)
     /\ exists c,
          consume (Py.len x) p = (Ret c, set_pos p (pos p + Py.len x)))
  /\ toktrans toktab p =
       match find (fun t => Py.startswith (remain p) (fst t)) toktab with
       | None => (Ret None, p)
       | Some (x, y) =>
           match generate y (set_pos p (pos p + Py.len x)) with
           | (Ret _, q) => (Ret (Some x), q)
           | (Raise e, q) => (Raise e, q)
           end
       end.
Proof.
  intros p. destruct (reachable_invariant cs i cset) as [Hp _].
  fold p in Hp. split.
  - intros x y _ Hx. pose proof (remain_bound p x Hp Hx) as Hb.
    split; [exact Hb|]. eexists. now apply consume_ok.
  - rewrite toktrans_first_match.
    destruct (find _ toktab) as [[x y]|] eqn:Hf; [|reflexivity].
    apply find_some in Hf. now apply matched_run.
Qed.

End ToktransFacts.

Lemma toktrans_consume_in_bounds_witness :
  let p := after_all [CallConsume 1] (state "xab") in
  let toktab := [(Py.str "abc", s "ABC"); (Py.str "ab", s "AB")] in
  pos p + 2 <= Py.len (input p)
  /\ exists c, consume 2 p = (Ret c, set_pos p (pos p + 2)).
Proof.
  intros p toktab.
  apply (proj1 (toktrans_consume_in_bounds [CallConsume 1] (Py.str "xab")
                  None toktab) (Py.str "ab") (s "AB")).
  - right. left. reflexivity.
  - reflexivity.
Defined.

Section TableFacts.

Context {E O : Type} `{EqDec E}.
Context `{Repr (list E)} `{Repr (@frag O)} `{Repr pyclass}.

Lemma find_app_first {A} (f : A -> bool) (before rest : list A) (a : A) :
  (forall b, In b before -> f b = false) -> f a = true ->
  find f (before ++ a :: rest) = Some a.
Proof.
  intros Hb Ha. induction before as [|b before IH]; simpl.
  - now rewrite Ha.
  - rewrite (Hb b) by now left. apply IH. intros; apply Hb. now right.
Qed.

Lemma find_all_false {A} (f : A -> bool) (l : list A) :
  (forall b, In b l -> f b = false) -> find f l = None.
Proof.
  intros Hb. induction l as [|b l IH]; simpl; [reflexivity|].
  rewrite (Hb b) by now left. apply IH. intros; apply Hb. now right.
Qed.

(** C3, amended. In every state reached from the constructor, for every
    table: at the first entry whose key the remaining input starts with
    (no key before it matches), when the output list accepts the value
    of that entry, [toktrans] returns the key and leaves the position
    advanced by [len(key)] and the value appended, nothing else changed;
    when no key matches it returns [None] and leaves the state as it
    was. *)
Theorem toktrans_contract (cs : list (@PState_call E O)) (i : list E)
    (cset : option (@Charset E)) (toktab : list (list E * @frag O)) :
  let p := after_all cs (PState_init i cset) in
  (forall before x y rest,
     toktab = before ++ (x, y) :: rest ->
     (forall k v, In (k, v) before -> Py.startswith (remain p) k = false) ->
     Py.startswith (remain p) x = true ->
     accepts p y = true ->
     toktrans toktab p =
       (Ret (Some x),
        set_olist (set_pos p (pos p + Py.len x)) (olist p ++ [y])))
  /\ ((forall k v, In (k, v) toktab -> Py.startswith (remain p) k = false) ->
      toktrans toktab p = (Ret None, p)).
Proof.
  intros p. destruct (reachable_invariant cs i cset) as [Hp _].
  fold p in Hp. split.
  - intros before x y rest -> Hbefore Hx Hacc.
    rewrite toktrans_first_match.
    rewrite (find_app_first _ before rest (x, y)).
    + rewrite matched_run by assumption.
      now rewrite generate_accepted.
    + intros [k v] Hin. simpl. now apply (Hbefore k v).
    + exact Hx.
  - intros Hnone. rewrite toktrans_first_match.
    rewrite find_all_false; [reflexivity|].
    intros [k v] Hin. simpl. now apply (Hnone k v).
Qed.

Lemma map_pair_eta {A B} (l : list (A * B)) :
  map (fun f => (fst f, snd f)) l = l.
Proof.
  induction l as [|[a b] l IH]; simpl; [reflexivity|]. now rewrite IH.
Qed.

(** [toksort]: the projected entries, longest key first. *)
Lemma toksort_sorted {T V} (toktab : list T) (field0 : T -> list E)
    (field1 : T -> V) :
  StronglySorted (fun a b => Py.len (fst a) >= Py.len (fst b))
    (toksort toktab field0 field1)
  /\ Permutation (map (fun f => (field0 f, field1 f)) toktab)
       (toksort toktab field0 field1).
Proof.
  unfold toksort. split.
  - apply (sorted_rev_sorted (fun t : list E * V => Py.len (fst t))).
  - apply sorted_rev_perm.
Qed.

(** On a sorted table, [toktrans] goes on with a longest matching key. *)
Lemma toksort_longest (toktab : list (list E * @frag O)) (p : @PState E O)
    (k : list E) (v : @frag O) :
  pos p <= Py.len (input p) ->
  In (k, v) toktab -> Py.startswith (remain p) k = true ->
  exists x y,
    In (x, y) toktab
    /\ Py.startswith (remain p) x = true
    /\ Py.len k <= Py.len x
    /\ toktrans (toksort toktab fst snd) p =
         match generate y (set_pos p (pos p + Py.len x)) with
         | (Ret _, q) => (Ret (Some x), q)
         | (Raise e, q) => (Raise e, q)
         end.
Proof.
  intros Hp Hin Hk.
  destruct (toksort_sorted toktab fst snd) as [Hs Hperm].
  rewrite map_pair_eta in Hperm.
  destruct (find_first_sorted (fun t : list E * @frag O => Py.len (fst t))
              (fun t => Py.startswith (remain p) (fst t))
              _ Hs (k, v) (Permutation_in _ Hperm Hin) Hk)
    as ([x y] & Hfind & Hlen).
  exists x, y. destruct (find_some _ _ Hfind) as [Hinx Hx].
  simpl in Hx, Hlen. repeat split.
  - apply (Permutation_in _ (Permutation_sym Hperm) Hinx).
  - exact Hx.
  - lia.
  - rewrite toktrans_first_match, Hfind. now apply matched_run.
Qed.

End TableFacts.

(** C3 as stated fails: with a [bytes] fragment first in the output list
    and the table [(("a", "A"),)] on the input ["a"], the key matches, but
    [toktrans] raises a [ParseError], with the position advanced and
    nothing appended, instead of returning the key. *)
Lemma toktrans_value_rejected :
  let p := after_all [CallGenerate (b "x")] (state "a") in
  let toktab := [(Py.str "a", s "A")] in
  Py.startswith (remain p) (Py.str "a") = true
  /\ (exists msg, toktrans toktab p = (Raise (ParseError msg), set_pos p 1))
  /\ toktrans toktab p <>
       (Ret (Some (Py.str "a")),
        set_olist (set_pos p (pos p + 1)) (olist p ++ [s "A"])).
Proof.
  vm_compute. split; [reflexivity|]. split.
  - eexists. reflexivity.
  - discriminate.
Qed.

Lemma toktrans_contract_witness :
  let p := after_all [CallConsume 1] (state "xab") in
  toktrans [(Py.str "b", s "B"); (Py.str "a", s "A")] p =
    (Ret (Some (Py.str "a")),
     set_olist (set_pos p (pos p + 1)) (olist p ++ [s "A"]))
  /\ toktrans [(Py.str "b", s "B")] p = (Ret None, p).
Proof.
  intros p. split.
  - apply (proj1 (toktrans_contract [CallConsume 1] (Py.str "xab") None
                    [(Py.str "b", s "B"); (Py.str "a", s "A")])
             [(Py.str "b", s "B")] (Py.str "a") (s "A") []).
    + reflexivity.
    + intros k v [[= <- <-]|[]]. reflexivity.
    + reflexivity.
    + reflexivity.
  - apply (proj2 (toktrans_contract [CallConsume 1] (Py.str "xab") None
                    [(Py.str "b", s "B")])).
    intros k v [[= <- <-]|[]]. reflexivity.
Defined.

Section LongestMatch.

Context {E O : Type} `{EqDec E}.

(** Input remains only when the position is within the input. *)
Lemma remain_nonempty (p : @PState E O) :
  remain p <> [] -> pos p <= Py.len (input p).
Proof.
  intros Hne. destruct (Z_le_gt_dec (pos p) (Py.len (input p))) as [|Hgt];
    [assumption|].
  exfalso. apply Hne. unfold remain, Py.slice_from, Py.adjust.
  pose proof (len_nonneg (input p)).
  destruct (pos p <? 0) eqn:E1; [apply Z.ltb_lt in E1; lia|]. rewrite E1.
  destruct (Py.len (input p) <? pos p) eqn:E2;
    [|apply Z.ltb_ge in E2; lia].
  apply skipn_all2. unfold Py.len. lia.
Qed.

End LongestMatch.

(** C1. [toksort] returns the projected entries of the table ordered by
    key length, longest first. The table
    [toksort([("ab","AB"), ("a","A")])] is [("ab","AB"), ("a","A")] (also
    when the two entries are given in the other order), and [toktrans] with
    it, in a state whose remaining input is ["abc"] and whose output list
    accepts a [str], returns ["ab"], advances the position by 2 and appends
    ["AB"]. For every table and every state with its position within the
    input: when a key of the table matches at the position, [toktrans] on
    the sorted table goes on with a matching key that is at least as long
    (it ends as the [generate] of that entry's value ends), so a shorter
    key never wins against a longer matching one. *)
Theorem toktrans_longest_match :
  (forall (E T V : Type) (toktab : list T) (field0 : T -> list E)
          (field1 : T -> V),
      StronglySorted (fun a b => Py.len (fst a) >= Py.len (fst b))
        (toksort toktab field0 field1)
      /\ Permutation (map (fun f => (field0 f, field1 f)) toktab)
           (toksort toktab field0 field1))
  /\ toksort [(Py.str "ab", s "AB"); (Py.str "a", s "A")] fst snd
     = [(Py.str "ab", s "AB"); (Py.str "a", s "A")]
  /\ toksort [(Py.str "a", s "A"); (Py.str "ab", s "AB")] fst snd
     = [(Py.str "ab", s "AB"); (Py.str "a", s "A")]
  /\ (forall p : @PState ascii ascii,
        remain p = Py.str "abc" ->
        accepts p (s "AB") = true ->
        toktrans (toksort [(Py.str "ab", s "AB"); (Py.str "a", s "A")]
                    fst snd) p
        = (Ret (Some (Py.str "ab")),
           set_olist (set_pos p (pos p + 2)) (olist p ++ [s "AB"])))
  /\ (forall (E O : Type) (eqE : EqDec E) (reprE : Repr (list E))
             (reprF : Repr (@frag O)) (reprC : Repr pyclass)
             (toktab : list (list E * @frag O)) (p : @PState E O)
             (k : list E) (v : @frag O),
        pos p <= Py.len (input p) ->
        In (k, v) toktab ->
        Py.startswith (remain p) k = true ->
        exists x y,
          In (x, y) toktab
          /\ Py.startswith (remain p) x = true
          /\ Py.len k <= Py.len x
          /\ toktrans (toksort toktab fst snd) p =
               match generate y (set_pos p (pos p + Py.len x)) with
               | (Ret _, q) => (Ret (Some x), q)
               | (Raise e, q) => (Raise e, q)
               end).
Proof.
  split; [intros; apply toksort_sorted|].
  split; [reflexivity|]. split; [reflexivity|]. split.
  - intros p Hrem Hacc.
    change (toksort [(Py.str "ab", s "AB"); (Py.str "a", s "A")] fst snd)
      with [(Py.str "ab", s "AB"); (Py.str "a", s "A")].
    assert (Hp : pos p <= Py.len (input p)).
    { apply remain_nonempty. rewrite Hrem. discriminate. }
    assert (Hm : Py.startswith (remain p) (Py.str "ab") = true).
    { rewrite Hrem. reflexivity. }
    rewrite toktrans_first_match. cbn [find fst]. rewrite Hm.
    rewrite matched_run by assumption.
    now rewrite generate_accepted.
  - intros E O eqE reprE reprF reprC toktab p k v Hp Hin Hk.
    exact (toksort_longest toktab p k v Hp Hin Hk).
Qed.

Lemma toktrans_longest_match_witness :
  toktrans (toksort [(Py.str "ab", s "AB"); (Py.str "a", s "A")] fst snd)
    (state "abc")
  = (Ret (Some (Py.str "ab")),
     set_olist (set_pos (state "abc") 2) [s "AB"]).
Proof.
  destruct toktrans_longest_match as (_ & _ & _ & Hex & _).
  apply (Hex (state "abc")); reflexivity.
Defined.

(** ** [Parser]: the two parse points *)

Section ParserFacts.

Context {E O : Type} `{EqDec E}.

(** [string_match]: the window of [len(expected)] elements at the
    unconfirmed parse point is compared with [expected]. *)
Lemma string_match_spec {A} `{EqDec A} (inj : list A -> @pinput E)
    (inp expected : list A) (p : @Parser E O) :
  0 <= pos_un p ->
  let next := firstn (List.length expected)
                (skipn (Z.to_nat (pos_un p)) inp) in
  (next = expected ->
   string_match inj inp expected p =
     (Ret (Some (inj next)), set_pos_un p (pos_un p + Py.len expected)))
  /\ (next <> expected -> string_match inj inp expected p = (Ret None, p)).
Proof.
  intros Hp next. unfold string_match, bind, get, put, ret.
  rewrite slice_window by (try apply len_nonneg; assumption).
  replace (Z.to_nat (Py.len expected)) with (List.length expected)
    by (unfold Py.len; lia).
  fold next.
  destruct (Py.seq_eqb expected next) eqn:Heq.
  - apply seq_eqb_eq in Heq. split; [reflexivity|congruence].
  - split; [|reflexivity]. intros Hn. symmetry in Hn.
    apply seq_eqb_eq in Hn. congruence.
Qed.

Lemma Parser_string_unfold (s : list ascii) (p : @Parser E O) :
  Parser_string s p =
    match p_input p with
    | InStr i => string_match InStr i s p
    | InSeq i =>
        match codec p with
        | None => (Raise AttributeError, p)
        | Some c => string_match InSeq i (map (native c) s) p
        end
    end.
Proof.
  unfold Parser_string, bind at 1, get.
  destruct (p_input p); [reflexivity|]. now destruct (codec p).
Qed.

(** What [string] may do to the parse points. *)
Lemma Parser_string_state (s : list ascii) (p : @Parser E O) :
  snd (Parser_string s p) = p
  \/ exists k, 0 <= k /\ snd (Parser_string s p) = set_pos_un p (pos_un p + k).
Proof.
  assert (Hm : forall A (HA : EqDec A) (inj : list A -> @pinput E) inp
                 expected,
             snd (string_match inj inp expected p) = p
             \/ exists k, 0 <= k
                  /\ snd (string_match inj inp expected p)
                     = set_pos_un p (pos_un p + k)).
  { intros A HA inj inp expected. unfold string_match, bind, get, put, ret.
    destruct (Py.seq_eqb expected _); [right|left; reflexivity].
    exists (Py.len expected). split; [apply len_nonneg|reflexivity]. }
  rewrite Parser_string_unfold.
  destruct (p_input p) as [i|i]; [apply Hm|].
  destruct (codec p) as [c|]; [apply Hm|left; reflexivity].
Qed.

Lemma Parser_after_points (c : Parser_call) (p : @Parser E O) :
  0 <= pos_conf p <= pos_un p ->
  0 <= pos_conf (Parser_after c p) <= pos_un (Parser_after c p).
Proof.
  intros Hp. destruct c as [| |s]; simpl; try lia.
  destruct (Parser_string_state s p) as [->|(k & Hk & ->)]; simpl; lia.
Qed.

Lemma Parser_after_all_points (cs : list Parser_call) (p : @Parser E O) :
  0 <= pos_conf p <= pos_un p ->
  0 <= pos_conf (Parser_after_all cs p) <= pos_un (Parser_after_all cs p).
Proof.
  revert p. induction cs as [|c cs IH]; intros p Hp; simpl; [assumption|].
  apply IH. now apply Parser_after_points.
Qed.

(** C5. In every state reached from [Parser(input, codec)] by calls of
    [start()], [confirm()] and [string(s)], the unconfirmed parse point
    is not before the confirmed one. The constructor sets both to 0,
    [start()] copies the confirmed point to the unconfirmed one,
    [confirm()] copies the unconfirmed point to the confirmed one, and
    [string(s)] never moves the confirmed point and never moves the
    unconfirmed one back. *)
Theorem checkpoint_invariant (i : @pinput E) (c : option (@Charset E))
    (cs : list Parser_call) :
  pos_un (Parser_after_all cs (Parser_init (O:=O) i c))
    >= pos_conf (Parser_after_all cs (Parser_init (O:=O) i c))
  /\ pos_conf (Parser_init (O:=O) i c) = 0
  /\ pos_un (Parser_init (O:=O) i c) = 0
  /\ (forall p : @Parser E O,
        Parser_start p = (Ret tt, set_pos_un p (pos_conf p))
        /\ Parser_confirm p = (Ret tt, set_pos_conf p (pos_un p)))
  /\ (forall (s : list ascii) (p : @Parser E O),
        pos_conf (snd (Parser_string s p)) = pos_conf p
        /\ pos_un (snd (Parser_string s p)) >= pos_un p).
Proof.
  split; [|split; [reflexivity|split; [reflexivity|split]]].
  - pose proof (Parser_after_all_points cs (Parser_init (O:=O) i c)) as Hinv.
    simpl in Hinv. lia.
  - intros p. split; reflexivity.
  - intros lit p.
    destruct (Parser_string_state lit p) as [->|(k & Hk & ->)]; simpl;
      split; lia.
Qed.

Lemma Parser_string_spec (s : list ascii) (p : @Parser E O) :
  0 <= pos_un p ->
  (forall i, p_input p = InStr i ->
     let next := firstn (List.length s) (skipn (Z.to_nat (pos_un p)) i) in
     (next = s ->
      Parser_string s p =
        (Ret (Some (InStr next)), set_pos_un p (pos_un p + Py.len s)))
     /\ (next <> s -> Parser_string s p = (Ret None, p)))
  /\ (forall i c, p_input p = InSeq i -> codec p = Some c ->
        let expected := map (native c) s in
        let next := firstn (List.length s)
                      (skipn (Z.to_nat (pos_un p)) i) in
        (next = expected ->
         Parser_string s p =
           (Ret (Some (InSeq next)), set_pos_un p (pos_un p + Py.len s)))
        /\ (next <> expected -> Parser_string s p = (Ret None, p))).
Proof.
  intros Hp. split.
  - intros i Hi. rewrite Parser_string_unfold, Hi.
    now apply string_match_spec.
  - intros i c Hi Hc. rewrite Parser_string_unfold, Hi, Hc.
    pose proof (string_match_spec InSeq i (map (native c) s) p Hp) as Hm.
    unfold Py.len in *. rewrite length_map in Hm. exact Hm.
Qed.

End ParserFacts.

(** C7. For a [Parser] with its unconfirmed parse point at [pos_un >= 0],
    on a [str] input, or on another input with a codec (the literal is
    then converted element by element with [codec.native]): when the next
    [len(s)] elements from the unconfirmed parse point equal the literal,
    [string(s)] returns that slice and advances the unconfirmed parse
    point by [len(s)], changing nothing else; when they do not (also when
    fewer elements are left), it returns [None] and leaves the state as it
    was. [string("help")] on the input ["hello"] returns [None] and leaves
    the parser, so the unconfirmed parse point, unchanged. *)
Theorem Parser_string_contract :
  (forall (E O : Type) (eqE : EqDec E) (s : list ascii) (p : @Parser E O),
      0 <= pos_un p ->
      (forall i, p_input p = InStr i ->
         let next := firstn (List.length s)
                       (skipn (Z.to_nat (pos_un p)) i) in
         (next = s ->
          Parser_string s p =
            (Ret (Some (InStr next)), set_pos_un p (pos_un p + Py.len s)))
         /\ (next <> s -> Parser_string s p = (Ret None, p)))
      /\ (forall i c, p_input p = InSeq i -> codec p = Some c ->
            let expected := map (native c) s in
            let next := firstn (List.length s)
                          (skipn (Z.to_nat (pos_un p)) i) in
            (next = expected ->
             Parser_string s p =
               (Ret (Some (InSeq next)),
                set_pos_un p (pos_un p + Py.len s)))
            /\ (next <> expected -> Parser_string s p = (Ret None, p))))
  /\ Parser_string (Py.str "help") (parser "hello")
     = (Ret None, parser "hello")
  /\ pos_un (snd (Parser_string (Py.str "help") (parser "hello"))) = 0.
Proof.
  split.
  - intros E O eqE s p Hp. now apply Parser_string_spec.
  - split; reflexivity.
Qed.

Lemma Parser_string_contract_witness :
  Parser_string (Py.str "hell") (parser "hello")
  = (Ret (Some (InStr (Py.str "hell"))), set_pos_un (parser "hello") 4)
  /\ Parser_string (Py.str "help") (parser "hello")
     = (Ret None, parser "hello").
Proof.
  destruct Parser_string_contract as [Hgen _].
  split.
  - apply (proj1 (proj1 (Hgen ascii ascii _ (Py.str "hell") (parser "hello")
                           (Z.le_refl 0)) (Py.str "hello") eq_refl)).
    reflexivity.
  - apply (proj2 (proj1 (Hgen ascii ascii _ (Py.str "help") (parser "hello")
                           (Z.le_refl 0)) (Py.str "hello") eq_refl)).
    discriminate.
Defined.

(** * Further properties of the code *)

(** ** [PState]: looking at the input and moving through it *)

Section CursorFacts.

Context {E O : Type} `{EqDec E}.
Context `{Repr (list E)} `{Repr (@frag O)} `{Repr pyclass}.

Lemma remain_in_range (p : @PState E O) :
  0 <= pos p <= Py.len (input p) ->
  remain p = skipn (Z.to_nat (pos p)) (input p).
Proof. intros Hp. unfold remain. now apply slice_from_in_range. Qed.

Lemma index_in_range {A} (l : list A) (i : Z) :
  0 <= i < Py.len l -> Py.index l i = nth_error l (Z.to_nat i).
Proof.
  intros Hi. unfold Py.index.
  destruct (i <? 0) eqn:E1; [apply Z.ltb_lt in E1; lia|]. rewrite E1.
  destruct (Py.len l <=? i) eqn:E2; [apply Z.leb_le in E2; lia|].
  reflexivity.
Qed.

(** [byte] when input remains: the element at the position is consumed,
    then [genf], if any, decides how the call ends. *)
Lemma byte_unfinished (genf : option (E -> @frag O)) (err : option string)
    (p : @PState E O) :
  0 <= pos p < Py.len (input p) ->
  exists x,
    nth_error (input p) (Z.to_nat (pos p)) = Some x
    /\ byte genf err p =
         match genf with
         | None => (Ret (Some x), set_pos p (pos p + 1))
         | Some g =>
             match generate (g x) (set_pos p (pos p + 1)) with
             | (Ret _, q) => (Ret (Some x), q)
             | (Raise e, q) => (Raise e, q)
             end
         end.
Proof.
  intros Hp. destruct (consume_first_ok p Hp) as (x & Hx & Hc).
  exists x. split; [assumption|].
  unfold byte, bind, get. rewrite (finished_false p (proj2 Hp)), Hc.
  destruct genf as [g|]; [|reflexivity].
  now destruct (generate (g x) (set_pos p (pos p + 1))) as [[u|e] q].
Qed.

(** X1. [peek()] leaves every state as it is. At end of input it returns
    [None]; with [0 <= pos < len(input)] it returns the element at the
    position, the one a following [byte] returns. *)
Theorem peek_contract (p : @PState E O) :
  snd (peek p) = p
  /\ (finished p = true -> peek p = (Ret None, p))
  /\ (0 <= pos p < Py.len (input p) ->
      exists x,
        nth_error (input p) (Z.to_nat (pos p)) = Some x
        /\ peek p = (Ret (Some x), p)
        /\ forall err, fst (byte None err p) = Ret (Some x)).
Proof.
  split; [|split].
  - unfold peek, bind, get. destruct (pos p >=? Py.len (input p));
      [reflexivity|].
    now destruct (Py.index (input p) (pos p)).
  - unfold finished, peek, bind, get. now intros ->.
  - intros Hp. destruct (byte_unfinished None None p Hp) as (x & Hx & _).
    exists x. split; [assumption|]. split.
    + unfold peek, bind, get.
      pose proof (finished_false p (proj2 Hp)) as Hf. unfold finished in Hf.
      rewrite Hf, index_in_range, Hx by assumption. reflexivity.
    + intros err. destruct (byte_unfinished None err p Hp) as (x' & Hx' & ->).
      simpl. congruence.
Qed.

(** X2. For a position [pos >= 0], [finished()] holds exactly when
    [remain()] is empty. *)
Theorem finished_iff_remain_empty (p : @PState E O) :
  0 <= pos p -> (finished p = true <-> remain p = []).
Proof.
  intros Hp. pose proof (len_nonneg (input p)) as HL.
  assert (Hlen : Py.len (remain p)
                 = Py.len (input p) - Py.adjust (Py.len (input p)) (pos p)).
  { apply len_slice_from. }
  unfold finished. rewrite Z.geb_leb, Z.leb_le.
  destruct (Z_le_gt_dec (Py.len (input p)) (pos p)) as [Hge|Hlt].
  - split; [intros _|intros _; assumption].
    unfold Py.adjust in Hlen.
    destruct (pos p <? 0) eqn:E1; [apply Z.ltb_lt in E1; lia|].
    rewrite E1 in Hlen.
    destruct (Py.len (input p) <? pos p) eqn:E2;
      [|apply Z.ltb_ge in E2;
        replace (pos p) with (Py.len (input p)) in Hlen by lia];
      (destruct (remain p); [reflexivity|];
       unfold Py.len in Hlen; simpl in Hlen; lia).
  - rewrite adjust_id in Hlen by lia.
    split; [lia|]. intros Hr. rewrite Hr in Hlen.
    unfold Py.len in Hlen at 1. simpl in Hlen. lia.
Qed.

(** X3. Within the input ([0 <= pos], [0 <= n], [pos + n <= len(input)])
    what [consume(n)] returns, followed by what remains after the call,
    is what remained before it. *)
Theorem consume_remain (p : @PState E O) (n : Z) :
  0 <= pos p -> 0 <= n -> pos p + n <= Py.len (input p) ->
  exists c,
    consume n p = (Ret c, set_pos p (pos p + n))
    /\ remain p = c ++ remain (set_pos p (pos p + n)).
Proof.
  intros Hp Hn Hle. eexists. split; [now apply consume_ok|].
  rewrite slice_in_range by lia.
  rewrite !remain_in_range by (simpl; lia). simpl.
  replace (pos p + n - pos p) with n by lia.
  replace (Z.to_nat (pos p + n)) with (Z.to_nat n + Z.to_nat (pos p))%nat
    by lia.
  rewrite <- skipn_skipn. now rewrite firstn_skipn.
Qed.

(** X4. Two [consume] calls in a row, both within the input, return
    together and leave the state as one [consume] of the sum does. *)
Theorem consume_consume (p : @PState E O) (n m : Z) :
  0 <= pos p -> 0 <= n -> 0 <= m -> pos p + n + m <= Py.len (input p) ->
  (c1 <- consume n ;; c2 <- consume m ;; ret (c1 ++ c2)) p
  = consume (n + m) p.
Proof.
  intros Hp Hn Hm Hle. unfold bind, ret.
  rewrite (consume_ok p n) by lia.
  rewrite (consume_ok (set_pos p (pos p + n)) m) by (simpl; lia).
  rewrite (consume_ok p (n + m)) by lia. simpl.
  rewrite !slice_in_range by lia.
  replace (pos p + n - pos p) with n by lia.
  replace (pos p + n + m - (pos p + n)) with m by lia.
  replace (pos p + (n + m) - pos p) with (n + m) by lia.
  replace (pos p + (n + m)) with (pos p + n + m) by lia.
  f_equal.
  replace (Z.to_nat (pos p + n)) with (Z.to_nat n + Z.to_nat (pos p))%nat
    by lia.
  rewrite <- skipn_skipn.
  set (w := skipn (Z.to_nat (pos p)) (input p)).
  assert (Hw : (Z.to_nat n <= List.length w)%nat).
  { unfold w. rewrite length_skipn. unfold Py.len in Hle. lia. }
  rewrite <- (firstn_skipn (Z.to_nat n) w) at 3.
  replace (Z.to_nat (n + m)) with
    (List.length (firstn (Z.to_nat n) w) + Z.to_nat m)%nat
    by (rewrite length_firstn; lia).
  now rewrite firstn_app_2.
Qed.

(** X5. [consume] does not test the sign of its argument: with [n < 0],
    in a state with its position within the input, it does not raise and
    moves the position back by [-n]; when the new position is not
    negative, it returns the empty sequence. *)
Theorem consume_negative (p : @PState E O) (n : Z) :
  n < 0 -> pos p <= Py.len (input p) ->
  exists c,
    consume n p = (Ret c, set_pos p (pos p + n))
    /\ (0 <= pos p + n -> c = []).
Proof.
  intros Hn Hp. eexists. split; [apply consume_ok; lia|].
  intros Hnn. unfold Py.slice. rewrite !adjust_id by lia.
  now replace (Z.to_nat (pos p + n - pos p)) with 0%nat by lia.
Qed.

(** X6. When input remains ([0 <= pos < len(input)]), [byte] without
    [genf] returns the first element of [remain()] and leaves the rest of
    it as the new [remain()]. *)
Theorem byte_remain (p : @PState E O) (err : option string) :
  0 <= pos p < Py.len (input p) ->
  exists x,
    byte None err p = (Ret (Some x), set_pos p (pos p + 1))
    /\ remain p = x :: remain (set_pos p (pos p + 1)).
Proof.
  intros Hp. destruct (byte_unfinished None err p Hp) as (x & Hx & Hb).
  exists x. split; [assumption|].
  rewrite !remain_in_range by (simpl; lia). simpl.
  replace (Z.to_nat (pos p + 1)) with (S (Z.to_nat (pos p))) by lia.
  rewrite <- hd_error_skipn in Hx.
  rewrite <- (skipn_skipn 1 (Z.to_nat (pos p))).
  destruct (skipn (Z.to_nat (pos p)) (input p)) as [|y rest];
    [discriminate|].
  simpl in Hx. injection Hx as ->. reflexivity.
Qed.

(** X7. When input remains and the output list does not accept the
    fragment [genf] makes of the element, [byte] raises the [ParseError]
    of [generate] after the element is consumed: the position is advanced
    by one and the output list is as before. *)
Theorem byte_generate_rejected (p : @PState E O) (g : E -> @frag O)
    (err : option string) (x : E) :
  0 <= pos p < Py.len (input p) ->
  nth_error (input p) (Z.to_nat (pos p)) = Some x ->
  accepts p (g x) = false ->
  exists msg,
    byte (Some g) err p = (Raise (ParseError msg), set_pos p (pos p + 1)).
Proof.
  intros Hp Hx Hrej.
  destruct (byte_unfinished (Some g) err p Hp) as (x' & Hx' & ->).
  assert (x' = x) by congruence. subst x'.
  destruct (generate_rejected (g x) (set_pos p (pos p + 1)) Hrej)
    as [msg ->].
  now exists msg.
Qed.

End CursorFacts.

Lemma peek_contract_witness :
  peek (state "") = (Ret None, state "")
  /\ exists x,
       nth_error (Py.str "xy") 0 = Some x
       /\ peek (state "xy") = (Ret (Some x), state "xy")
       /\ forall err, fst (byte None err (state "xy")) = Ret (Some x).
Proof.
  destruct (peek_contract (state "")) as (_ & Hend & _).
  destruct (peek_contract (state "xy")) as (_ & _ & Hin).
  split.
  - apply Hend. reflexivity.
  - apply Hin. vm_compute. split; congruence.
Defined.

Lemma finished_iff_remain_empty_witness :
  finished (snd (consume 2 (state "xy"))) = true
  <-> remain (snd (consume 2 (state "xy"))) = [].
Proof.
  apply (finished_iff_remain_empty (snd (consume 2 (state "xy")))).
  vm_compute. congruence.
Defined.

Lemma consume_remain_witness :
  exists c,
    consume 2 (state "hello") = (Ret c, set_pos (state "hello") 2)
    /\ remain (state "hello") = c ++ remain (set_pos (state "hello") 2).
Proof.
  apply (consume_remain (state "hello") 2); vm_compute; congruence.
Defined.

Lemma consume_consume_witness :
  (c1 <- consume 2 ;; c2 <- consume 3 ;; ret (c1 ++ c2)) (state "hello")
  = consume 5 (state "hello").
Proof.
  apply (consume_consume (state "hello") 2 3); vm_compute; congruence.
Defined.

Lemma consume_negative_witness :
  exists c,
    consume (-1) (set_pos (state "hello") 3)
    = (Ret c, set_pos (state "hello") 2)
    /\ (0 <= 2 -> c = []).
Proof.
  apply (consume_negative (set_pos (state "hello") 3) (-1));
    vm_compute; congruence.
Defined.

Lemma byte_remain_witness :
  exists x,
    byte None None (state "xy") = (Ret (Some x), set_pos (state "xy") 1)
    /\ remain (state "xy") = x :: remain (set_pos (state "xy") 1).
Proof.
  apply (byte_remain (state "xy") None). vm_compute. split; congruence.
Defined.

Lemma byte_generate_rejected_witness :
  exists msg,
    byte (Some (fun x => s (String x EmptyString))) None
      (set_olist (state "xy") [b "z"])
    = (Raise (ParseError msg),
       set_pos (set_olist (state "xy") [b "z"]) 1).
Proof.
  apply (byte_generate_rejected (set_olist (state "xy") [b "z"])
           (fun x => s (String x EmptyString)) None "x"%char).
  - vm_compute. split; congruence.
  - reflexivity.
  - reflexivity.
Defined.

(** ** [PState]: what every sequence of calls keeps *)

Section CallFacts.

Context {E O : Type} `{EqDec E}.
Context `{Repr (list E)} `{Repr (@frag O)} `{Repr pyclass}.

Lemma generate_pos (x : @frag O) (p : @PState E O) :
  pos (snd (generate x p)) = pos p.
Proof.
  destruct (accepts p x) eqn:Hacc.
  - now rewrite generate_accepted.
  - now destruct (generate_rejected x p Hacc) as [msg ->].
Qed.

Lemma consume_pos_mono (n : Z) (p : @PState E O) :
  0 <= n -> pos p <= pos (snd (consume n p)).
Proof.
  intros Hn. destruct (consume_state n p) as [->|[_ ->]]; simpl; lia.
Qed.

Lemma byte_pos_mono (genf : option (E -> @frag O)) (err : option string)
    (p : @PState E O) :
  pos p <= pos (snd (byte genf err p)).
Proof.
  unfold byte, bind, get. destruct (finished p).
  - destruct err; simpl; lia.
  - pose proof (consume_first_state p) as Hs.
    pose proof (consume_pos_mono 1 p ltac:(lia)) as Hc.
    destruct (consume_first p) as [[x|e] p1]; simpl in Hs; subst p1;
      [|exact Hc].
    destruct genf as [g|]; [|exact Hc].
    pose proof (generate_pos (g x) (snd (consume 1 p))) as Hg.
    destruct (generate (g x) (snd (consume 1 p))) as [[u|e] p2];
      simpl in *; lia.
Qed.

Lemma toktrans_pos_mono (toktab : list (list E * @frag O))
    (p : @PState E O) :
  pos p <= pos (snd (toktrans toktab p)).
Proof.
  rewrite toktrans_first_match.
  destruct (find _ toktab) as [[x y]|]; [|simpl; lia].
  unfold bind, ret.
  pose proof (consume_pos_mono (Py.len x) p (len_nonneg x)) as Hc.
  destruct (consume (Py.len x) p) as [[c|e] p1]; [|exact Hc].
  pose proof (generate_pos y p1) as Hg.
  destruct (generate y p1) as [[u|e] p2]; simpl in *; lia.
Qed.

Lemma after_pos_mono (c : @PState_call E O) (p : @PState E O) :
  nonneg_call c -> pos p <= pos (after c p).
Proof.
  intros Hc. destruct c; simpl in *.
  - now apply consume_pos_mono.
  - unfold peek, bind, get. destruct (pos p >=? Py.len (input p));
      [simpl; lia|].
    destruct (Py.index (input p) (pos p)); simpl; lia.
  - rewrite generate_pos. lia.
  - unfold output, bind, get, lift. destruct (olist p) as [|first rest];
      [simpl; lia|].
    destruct (join _ _); simpl; lia.
  - lia.
  - apply byte_pos_mono.
  - apply toktrans_pos_mono.
Qed.

(** X8. Through every sequence of calls in which [consume] is given
    counts [n >= 0], the position never moves back, and from the
    constructor it stays within [0 <= pos <= len(input)]. *)
Theorem position_in_bounds (cs : list (@PState_call E O)) :
  Forall nonneg_call cs ->
  (forall p : @PState E O, pos p <= pos (after_all cs p))
  /\ forall (i : list E) (cset : option (@Charset E)),
       0 <= pos (after_all cs (PState_init i cset))
         <= Py.len (input (after_all cs (PState_init i cset))).
Proof.
  intros Hcs.
  assert (Hmono : forall p : @PState E O, pos p <= pos (after_all cs p)).
  { induction Hcs as [|c cs Hc Hcs IH]; intros p; simpl; [lia|].
    pose proof (after_pos_mono c p Hc). pose proof (IH (after c p)). lia. }
  split; [exact Hmono|].
  intros i cset. split.
  - apply (Hmono (PState_init i cset)).
  - apply reachable_invariant.
Qed.

(** X9. No call changes the input, and the output list only grows at its
    end: after any sequence of calls the input is the one before, and the
    output list is the one before followed by the fragments appended. *)
Theorem input_kept_output_appended (cs : list (@PState_call E O))
    (p : @PState E O) :
  input (after_all cs p) = input p
  /\ exists added, olist (after_all cs p) = olist p ++ added.
Proof.
  revert p. induction cs as [|c cs IH]; intros p; simpl.
  - split; [reflexivity|]. exists []. now rewrite app_nil_r.
  - destruct (IH (after c p)) as (Hi & added & Ho).
    destruct (after_step c p) as (Hi' & _ & Ho').
    split; [congruence|].
    destruct Ho' as [Heq|(x & _ & Heq)]; rewrite Ho, Heq.
    + now exists added.
    + exists (x :: added). now rewrite <- app_assoc.
Qed.

(** X10. In every state reached from the constructor, each fragment of
    the output list is of the class of the first fragment or of a proper
    subclass of it. *)
Theorem olist_one_family (cs : list (@PState_call E O)) (i : list E)
    (cset : option (@Charset E)) :
  let p := after_all cs (PState_init i cset) in
  match olist p with
  | [] => True
  | first :: _ =>
      Forall (fun x => ftype x = ftype first
                       \/ proper_subclass (ftype x) (ftype first) = true)
        (olist p)
  end.
Proof.
  intros p. destruct (reachable_invariant cs i cset) as [_ Hh].
  fold p in Hh. unfold homogeneous in Hh.
  destruct (olist p) as [|first rest]; [exact I|].
  eapply Forall_impl; [|exact Hh].
  intros x Hx. now apply issubclass_split.
Qed.

Lemma generate_all (l : list (@frag O)) (p : @PState E O)
    (first : @frag O) (done : list (@frag O)) :
  olist p = first :: done ->
  Forall (fun x => isinstance x (ftype first) = true) l ->
  olist (after_all (map CallGenerate l) p) = first :: done ++ l
  /\ pos (after_all (map CallGenerate l) p) = pos p.
Proof.
  revert p done. induction l as [|x l IH]; intros p done Hp Hl.
  - simpl. now rewrite app_nil_r.
  - inversion Hl as [|? ? Hx Hl']; subst.
    assert (Hacc : accepts p x = true) by (unfold accepts; now rewrite Hp).
    change (after_all (map CallGenerate (x :: l)) p)
      with (after_all (map CallGenerate l) (snd (generate x p))).
    rewrite generate_accepted by assumption. cbn [snd].
    destruct (IH (set_olist p (olist p ++ [x])) (done ++ [x])) as [Ho Hq].
    + simpl. now rewrite Hp.
    + assumption.
    + rewrite Ho, Hq. simpl. now rewrite <- app_assoc.
Qed.

(** X11. Generating, from a new state, a list of fragments that are all
    instances of the class of the first one fills the output list with
    exactly these fragments in order, and [output()] then returns the
    concatenation of their data; the position is still 0. *)
Theorem generate_output_roundtrip (i : list E) (cset : option (@Charset E))
    (first : @frag O) (rest : list (@frag O)) :
  Forall (fun x => isinstance x (ftype first) = true) rest ->
  let p := after_all (map CallGenerate (first :: rest)) (PState_init i cset) in
  olist p = first :: rest
  /\ pos p = 0
  /\ output p =
       (Ret (Some (Frag (builtin_of (ftype first))
                     (List.concat (map fdata (first :: rest))))), p).
Proof.
  intros Hrest p.
  assert (Hfirst : generate first (PState_init i cset)
                   = (Ret tt, set_olist (PState_init i cset) [first])).
  { now rewrite generate_accepted. }
  destruct (generate_all rest (set_olist (PState_init i cset) [first])
              first [] eq_refl Hrest) as [Ho Hq].
  assert (Hp : p = after_all (map CallGenerate rest)
                     (set_olist (PState_init i cset) [first])).
  { unfold p.
    change (after_all (map CallGenerate (first :: rest)) (PState_init i cset))
      with (after_all (map CallGenerate rest)
              (snd (generate first (PState_init i cset)))).
    now rewrite Hfirst. }
  rewrite <- Hp in Ho, Hq. simpl in Ho, Hq.
  split; [assumption|]. split; [assumption|].
  rewrite output_homogeneous.
  - now rewrite Ho.
  - rewrite Ho. simpl. constructor; [apply issubclass_refl|assumption].
Qed.

End CallFacts.

Lemma position_in_bounds_witness :
  (forall p : @PState ascii ascii,
      pos p <= pos (after_all [CallConsume 2; CallByte None None] p))
  /\ forall i cset,
       0 <= pos (after_all [CallConsume 2; CallByte None None]
                   (PState_init (O:=ascii) i cset))
         <= Py.len (input (after_all [CallConsume 2; CallByte None None]
                             (PState_init (O:=ascii) i cset))).
Proof.
  apply (position_in_bounds [CallConsume 2; CallByte None None]).
  repeat constructor. simpl. lia.
Defined.

Lemma generate_output_roundtrip_witness :
  let p := after_all (map CallGenerate [s "AB"; s "C"]) (state "x") in
  olist p = [s "AB"; s "C"]
  /\ pos p = 0
  /\ output p = (Ret (Some (s "ABC")), p).
Proof.
  apply (generate_output_roundtrip (Py.str "x") None (s "AB") [s "C"]).
  repeat constructor.
Defined.

(** ** [toktrans] and [toksort]: more on tables *)

Section MoreTableFacts.

Context {E O : Type} `{EqDec E}.
Context `{Repr (list E)} `{Repr (@frag O)} `{Repr pyclass}.

(** The run on a matching entry never returns [None]. *)
Lemma matched_run_not_none (p q : @PState E O) (x : list E) (y : @frag O) :
  (consume (Py.len x) ;; generate y ;; ret (Some x)) p <> (Ret None, q).
Proof.
  unfold bind, ret.
  destruct (consume (Py.len x) p) as [[c|e] p1]; [|discriminate].
  destruct (generate y p1) as [[u|e] p2]; discriminate.
Qed.

(** X12. When [toktrans] returns a key, in a state with [0 <= pos <=
    len(input)]: the key belongs to an entry of the table, the remaining
    input started with it, what remains afterwards is the rest of it, and
    the value of that entry is the one fragment appended. When it returns
    [None], the state is unchanged and no key of the table matched. *)
Theorem toktrans_returns (toktab : list (list E * @frag O))
    (p q : @PState E O) :
  0 <= pos p <= Py.len (input p) ->
  (forall x, toktrans toktab p = (Ret (Some x), q) ->
     exists y,
       In (x, y) toktab
       /\ remain p = x ++ remain q
       /\ pos q = pos p + Py.len x
       /\ olist q = olist p ++ [y]
       /\ input q = input p)
  /\ (toktrans toktab p = (Ret None, q) ->
      q = p
      /\ forall k v, In (k, v) toktab -> Py.startswith (remain p) k = false).
Proof.
  intros Hp. rewrite toktrans_first_match.
  destruct (find _ toktab) as [[x y]|] eqn:Hf; split.
  - intros x' Hrun. destruct (find_some _ _ Hf) as [Hin Hx]. simpl in Hx.
    rewrite matched_run in Hrun by (lia || assumption).
    pose proof (remain_bound p x (proj2 Hp) Hx) as Hb.
    destruct (accepts (set_pos p (pos p + Py.len x)) y) eqn:Hacc.
    + rewrite generate_accepted in Hrun by assumption.
      injection Hrun as <- <-. exists y. simpl.
      repeat split; try reflexivity; try assumption.
      pose proof (len_nonneg x).
      rewrite !remain_in_range by (simpl; lia). simpl.
      rewrite <- remain_in_range by lia.
      apply startswith_app in Hx. destruct Hx as [t Ht].
      rewrite remain_in_range in Ht by lia.
      replace (Z.to_nat (pos p + Py.len x))
        with (List.length x + Z.to_nat (pos p))%nat
        by (unfold Py.len; lia).
      rewrite <- skipn_skipn, remain_in_range, Ht by lia.
      now rewrite skipn_app, skipn_all, Nat.sub_diag.
    + destruct (generate_rejected y _ Hacc) as [msg Hmsg].
      rewrite Hmsg in Hrun. discriminate.
  - intros Hrun. now apply matched_run_not_none in Hrun.
  - intros x' Hrun. discriminate.
  - intros Hrun. injection Hrun as <-. split; [reflexivity|].
    intros k v Hin. apply (find_none _ _ Hf (k, v) Hin).
Qed.

(** X13. When the output list does not accept the value of the first
    matching entry, [toktrans] raises the [ParseError] of [generate] after
    the key is consumed: the position is advanced by [len(key)] and the
    output list is as before. *)
Theorem toktrans_generate_rejected (toktab : list (list E * @frag O))
    (p : @PState E O) (x : list E) (y : @frag O) :
  pos p <= Py.len (input p) ->
  find (fun t => Py.startswith (remain p) (fst t)) toktab = Some (x, y) ->
  accepts p y = false ->
  exists msg,
    toktrans toktab p
    = (Raise (ParseError msg), set_pos p (pos p + Py.len x)).
Proof.
  intros Hp Hf Hrej. rewrite toktrans_first_match, Hf.
  destruct (find_some _ _ Hf) as [_ Hx]. simpl in Hx.
  rewrite matched_run by assumption.
  destruct (generate_rejected y (set_pos p (pos p + Py.len x)) Hrej)
    as [msg ->].
  now exists msg.
Qed.

Lemma find_app_hit {A} (f : A -> bool) (before rest : list A) (a : A) :
  f a = true -> find f (before ++ a :: rest) = find f (before ++ [a]).
Proof.
  intros Ha. induction before as [|b before IH]; simpl.
  - now rewrite Ha.
  - now destruct (f b).
Qed.

Lemma startswith_trans (l k2 k1 : list E) :
  Py.startswith l k2 = true -> Py.startswith k2 k1 = true ->
  Py.startswith l k1 = true.
Proof.
  intros [t ->]%startswith_app [u ->]%startswith_app.
  apply startswith_app. exists (u ++ t). now rewrite app_assoc.
Qed.

(** X14. A key placed before a longer key it is a prefix of hides it:
    whenever the remaining input starts with the longer key [k2],
    [toktrans] does what it does on the table cut after the entry of the
    prefix [k1], so no entry after that one is ever used. *)
Theorem toktrans_prefix_hides (before rest : list (list E * @frag O))
    (k1 k2 : list E) (v1 : @frag O) (p : @PState E O) :
  Py.startswith k2 k1 = true ->
  Py.startswith (remain p) k2 = true ->
  toktrans (before ++ (k1, v1) :: rest) p
  = toktrans (before ++ [(k1, v1)]) p.
Proof.
  intros Hpre Hk2. rewrite !toktrans_first_match.
  rewrite find_app_hit; [reflexivity|].
  simpl. now apply startswith_trans with (k2 := k2).
Qed.

(** X15. A table with an empty key never fails: [toktrans] does not
    return [None], whatever the state. *)
Theorem toktrans_empty_key (toktab : list (list E * @frag O))
    (v : @frag O) (p q : @PState E O) :
  In ([], v) toktab -> toktrans toktab p <> (Ret None, q).
Proof.
  intros Hin. rewrite toktrans_first_match.
  destruct (find _ toktab) as [[x y]|] eqn:Hf.
  - apply matched_run_not_none.
  - pose proof (find_none _ _ Hf ([], v) Hin) as Hn. discriminate.
Qed.

End MoreTableFacts.

Section MoreSortFacts.

Context {A : Type} (key : A -> Z).

Lemma sorted_rev_fixed (l : list A) :
  StronglySorted (fun a b => key a >= key b) l -> Py.sorted_rev key l = l.
Proof.
  induction 1 as [|a l Hs IH Ha]; simpl; [reflexivity|].
  rewrite IH. destruct l as [|y l]; [reflexivity|]. simpl.
  inversion Ha as [|? ? Hy _]; subst.
  destruct (key a <? key y) eqn:Hlt; [apply Z.ltb_lt in Hlt; lia|].
  reflexivity.
Qed.

Lemma insert_rev_filter (n : Z) (x : A) (l : list A) :
  filter (fun t => key t =? n) (Py.insert_rev key x l)
  = filter (fun t => key t =? n) (x :: l).
Proof.
  induction l as [|y l IH]; [reflexivity|].
  cbn [Py.insert_rev]. destruct (key x <? key y) eqn:Hlt; [|reflexivity].
  apply Z.ltb_lt in Hlt. cbn [filter] in *. rewrite IH.
  destruct (key x =? n) eqn:Ex; destruct (key y =? n) eqn:Ey;
    try reflexivity.
  apply Z.eqb_eq in Ex, Ey. lia.
Qed.

Lemma sorted_rev_filter (n : Z) (l : list A) :
  filter (fun t => key t =? n) (Py.sorted_rev key l)
  = filter (fun t => key t =? n) l.
Proof.
  induction l as [|x l IH]; [reflexivity|].
  cbn [Py.sorted_rev]. rewrite insert_rev_filter. cbn [filter].
  now rewrite IH.
Qed.

Lemma find_filter (f g : A -> bool) (l : list A) :
  find f (filter g l) = find (fun t => g t && f t) l.
Proof.
  induction l as [|b l IH]; [reflexivity|]. simpl.
  destruct (g b); simpl; [|exact IH]. now destruct (f b).
Qed.

Lemma find_some_filter (f g : A -> bool) (l : list A) (a : A) :
  find f l = Some a -> g a = true -> find f (filter g l) = Some a.
Proof.
  intros Hf Hg. induction l as [|b l IH]; [discriminate|]. simpl in *.
  destruct (f b) eqn:Hb.
  - injection Hf as ->. rewrite Hg. simpl. now rewrite Hb.
  - destruct (g b); simpl; [rewrite Hb|]; now apply IH.
Qed.

End MoreSortFacts.

Section TieFacts.

Context {E O : Type} `{EqDec E}.
Context `{Repr (list E)} `{Repr (@frag O)} `{Repr pyclass}.

(** X16. [toksort] leaves a table it has sorted as it is. *)
Theorem toksort_idempotent {T V} (toktab : list T) (field0 : T -> list E)
    (field1 : T -> V) :
  toksort (toksort toktab field0 field1) fst snd
  = toksort toktab field0 field1.
Proof.
  unfold toksort at 1. rewrite map_pair_eta.
  apply (sorted_rev_fixed (fun t : list E * V => Py.len (fst t))).
  apply toksort_sorted.
Qed.

(** X17. [toksort] is stable: for every length, the entries whose key has
    that length come in the sorted table in the order they have in the
    table given. *)
Theorem toksort_stable {T V} (toktab : list T) (field0 : T -> list E)
    (field1 : T -> V) (n : Z) :
  filter (fun t => Py.len (fst t) =? n) (toksort toktab field0 field1)
  = filter (fun t => Py.len (fst t) =? n)
      (map (fun f => (field0 f, field1 f)) toktab).
Proof.
  unfold toksort.
  apply (sorted_rev_filter (fun t : list E * V => Py.len (fst t))).
Qed.

(** X18. Between entries of the same longest matching key the order of
    the table given decides: when a key of the table matches, [toktrans]
    on the sorted table goes on with the first entry of the given table
    among the matching ones whose key has the greatest length. *)
Theorem toktrans_tie_order (toktab : list (list E * @frag O))
    (p : @PState E O) (k : list E) (v : @frag O) :
  pos p <= Py.len (input p) ->
  In (k, v) toktab -> Py.startswith (remain p) k = true ->
  exists x y,
    find (fun t => (Py.len (fst t) =? Py.len x)
                   && Py.startswith (remain p) (fst t)) toktab
    = Some (x, y)
    /\ (forall k' v', In (k', v') toktab ->
          Py.startswith (remain p) k' = true -> Py.len k' <= Py.len x)
    /\ toktrans (toksort toktab fst snd) p =
         match generate y (set_pos p (pos p + Py.len x)) with
         | (Ret _, q) => (Ret (Some x), q)
         | (Raise e, q) => (Raise e, q)
         end.
Proof.
  intros Hp Hin Hk.
  destruct (toksort_sorted toktab fst snd) as [Hs Hperm].
  rewrite map_pair_eta in Hperm.
  set (f := fun t : list E * @frag O => Py.startswith (remain p) (fst t)).
  set (key := fun t : list E * @frag O => Py.len (fst t)).
  destruct (find_first_sorted key f _ Hs (k, v)
              (Permutation_in _ Hperm Hin) Hk) as ([x y] & Hfind & _).
  exists x, y. destruct (find_some _ _ Hfind) as [_ Hx]. split; [|split].
  - assert (Hst : filter (fun t => key t =? Py.len x)
                    (toksort toktab fst snd)
                  = filter (fun t => key t =? Py.len x) toktab).
    { unfold toksort. rewrite map_pair_eta. apply (sorted_rev_filter key). }
    change (find (fun t => (key t =? Py.len x) && f t) toktab = Some (x, y)).
    rewrite <- find_filter, <- Hst.
    apply find_some_filter; [exact Hfind|]. apply Z.eqb_refl.
  - intros k' v' Hin' Hk'.
    destruct (find_first_sorted key f _ Hs (k', v')
                (Permutation_in _ Hperm Hin') Hk') as (a & Ha & Hlen).
    rewrite Hfind in Ha. injection Ha as <-. unfold key in Hlen.
    simpl in Hlen. lia.
  - rewrite toktrans_first_match. fold f. rewrite Hfind.
    now apply matched_run.
Qed.

End TieFacts.

Lemma toktrans_returns_witness :
  exists y,
    In (Py.str "ab", y) [(Py.str "ab", s "AB")]
    /\ remain (state "abc")
       = Py.str "ab" ++ remain (set_olist (set_pos (state "abc") 2) [s "AB"])
    /\ pos (set_olist (set_pos (state "abc") 2) [s "AB"])
       = pos (state "abc") + Py.len (Py.str "ab")
    /\ olist (set_olist (set_pos (state "abc") 2) [s "AB"])
       = olist (state "abc") ++ [y]
    /\ input (set_olist (set_pos (state "abc") 2) [s "AB"])
       = input (state "abc").
Proof.
  apply (proj1 (toktrans_returns [(Py.str "ab", s "AB")] (state "abc")
                  (set_olist (set_pos (state "abc") 2) [s "AB"])
                  ltac:(vm_compute; split; congruence)) (Py.str "ab")).
  reflexivity.
Defined.

Lemma toktrans_generate_rejected_witness :
  exists msg,
    toktrans [(Py.str "a", s "A")] (set_olist (state "a") [b "x"])
    = (Raise (ParseError msg), set_pos (set_olist (state "a") [b "x"]) 1).
Proof.
  apply (toktrans_generate_rejected [(Py.str "a", s "A")]
           (set_olist (state "a") [b "x"]) (Py.str "a") (s "A")).
  - vm_compute. congruence.
  - reflexivity.
  - reflexivity.
Defined.

Lemma toktrans_prefix_hides_witness :
  toktrans [(Py.str "a", s "A"); (Py.str "ab", s "AB")] (state "abc")
  = toktrans [(Py.str "a", s "A")] (state "abc").
Proof.
  apply (toktrans_prefix_hides [] [(Py.str "ab", s "AB")] (Py.str "a")
           (Py.str "ab") (s "A") (state "abc")); reflexivity.
Defined.

Lemma toktrans_empty_key_witness :
  toktrans [(Py.str "b", s "B"); ([], s "")] (state "abc")
  <> (Ret None, state "abc").
Proof.
  apply (toktrans_empty_key [(Py.str "b", s "B"); ([], s "")] (s "")).
  right. left. reflexivity.
Defined.

Lemma toktrans_tie_order_witness :
  let toktab := [(Py.str "a", s "1"); (Py.str "ab", s "2");
                 (Py.str "ab", s "3")] in
  exists x y,
    find (fun t => (Py.len (fst t) =? Py.len x)
                   && Py.startswith (remain (state "abc")) (fst t)) toktab
    = Some (x, y)
    /\ (forall k' v', In (k', v') toktab ->
          Py.startswith (remain (state "abc")) k' = true ->
          Py.len k' <= Py.len x)
    /\ toktrans (toksort toktab fst snd) (state "abc") =
         match generate y (set_pos (state "abc")
                             (pos (state "abc") + Py.len x)) with
         | (Ret _, q) => (Ret (Some x), q)
         | (Raise e, q) => (Raise e, q)
         end.
Proof.
  intros toktab.
  apply (toktrans_tie_order toktab (state "abc") (Py.str "a") (s "1")).
  - vm_compute. congruence.
  - left. reflexivity.
  - reflexivity.
Defined.

(** ** The diagnostic of an error *)

Section DiagnosticFacts.

Context {E O : Type} `{EqDec E}.
Context `{Repr (list E)} `{Repr (@frag O)} `{Repr pyclass}.

Lemma recent_last (p : @PState E O) :
  recent p = skipn (List.length (olist p) - 4) (olist p).
Proof.
  unfold recent, Py.slice_from, Py.adjust.
  change (-4 <? 0) with true. cbn iota.
  pose proof (len_nonneg (olist p)) as HL.
  destruct (-4 + Py.len (olist p) <? 0) eqn:E1.
  - apply Z.ltb_lt in E1. f_equal. unfold Py.len in *. lia.
  - apply Z.ltb_ge in E1.
    destruct (Py.len (olist p) <? -4 + Py.len (olist p)) eqn:E2;
      [apply Z.ltb_lt in E2; lia|].
    f_equal. unfold Py.len in *. lia.
Qed.

(** X19. The text of an error is the message, a space, and the rendering
    of the state: "at", the position, the [repr] of the window ahead,
    "after" and the [repr] of the window behind, and the list of the last
    fragments. For [0 <= pos] the window ahead holds the next elements, at
    most 12; for [12 <= pos <= len(input)] the window behind holds the 12
    elements before the position; the fragments shown are the last 4 of
    the output list, or all of them when there are fewer. *)
Theorem error_text (message : string) (p : @PState E O) :
  error (A:=unit) message p =
    (Raise (ParseError
       (message ++ " " ++ "at " ++ Py.str_int (pos p) ++ ":"
        ++ repr (ahead p) ++ " after …" ++ repr (behind p)
        ++ " …" ++ Py.str_list (recent p))%string), p)
  /\ (0 <= pos p ->
      ahead p = firstn 12 (skipn (Z.to_nat (pos p)) (input p)))
  /\ (12 <= pos p <= Py.len (input p) ->
      behind p = firstn 12 (skipn (Z.to_nat (pos p) - 12) (input p))
      /\ List.length (behind p) = 12%nat)
  /\ recent p = skipn (List.length (olist p) - 4) (olist p).
Proof.
  split; [reflexivity|]. split; [apply ahead_ok|].
  split; [|apply recent_last].
  intros Hp. rewrite behind_ok by assumption.
  replace (Z.to_nat (pos p - 12)) with (Z.to_nat (pos p) - 12)%nat by lia.
  split; [reflexivity|].
  rewrite length_firstn, length_skipn. unfold Py.len in Hp. lia.
Qed.

(** X20. The window behind, for a position [0 <= pos < 12] within the
    input: when [len(input) + pos <= 12] it holds all [pos] elements
    before the position; when [len(input) >= 12] it is empty; otherwise
    it starts at index [len(input) + pos - 12] and so holds only
    [12 - len(input)] elements, fewer than [pos]. *)
Theorem behind_short_position (p : @PState E O) :
  0 <= pos p < 12 -> pos p <= Py.len (input p) ->
  (Py.len (input p) + pos p <= 12 ->
   behind p = firstn (Z.to_nat (pos p)) (input p))
  /\ (12 <= Py.len (input p) -> behind p = [])
  /\ (Py.len (input p) < 12 < Py.len (input p) + pos p ->
      behind p = firstn (Z.to_nat (12 - Py.len (input p)))
                   (skipn (Z.to_nat (Py.len (input p) + pos p - 12))
                      (input p))
      /\ Py.len (behind p) = 12 - Py.len (input p)
      /\ Py.len (behind p) < pos p).
Proof.
  intros Hp Hle. pose proof (len_nonneg (input p)) as HL.
  assert (Hb : behind p =
               firstn (Z.to_nat (pos p
                         - Py.adjust (Py.len (input p)) (pos p - 12)))
                 (skipn (Z.to_nat (Py.adjust (Py.len (input p))
                                     (pos p - 12))) (input p))).
  { unfold behind, Py.slice. now rewrite (adjust_id _ (pos p)) by lia. }
  assert (Ha : Py.adjust (Py.len (input p)) (pos p - 12)
               = Z.max 0 (pos p - 12 + Py.len (input p))).
  { unfold Py.adjust.
    destruct (pos p - 12 <? 0) eqn:E1; [|apply Z.ltb_ge in E1; lia].
    destruct (pos p - 12 + Py.len (input p) <? 0) eqn:E2;
      [apply Z.ltb_lt in E2; lia|apply Z.ltb_ge in E2].
    destruct (Py.len (input p) <? pos p - 12 + Py.len (input p)) eqn:E3;
      [apply Z.ltb_lt in E3; lia|lia]. }
  rewrite Ha in Hb. split; [|split].
  - intros Hs. rewrite Hb.
    replace (Z.max 0 (pos p - 12 + Py.len (input p))) with 0 by lia.
    now rewrite Z.sub_0_r.
  - intros Hl. rewrite Hb.
    now replace (Z.to_nat (pos p
                   - Z.max 0 (pos p - 12 + Py.len (input p))))
      with 0%nat by lia.
  - intros Hs.
    assert (Hb' : behind p =
                  firstn (Z.to_nat (12 - Py.len (input p)))
                    (skipn (Z.to_nat (Py.len (input p) + pos p - 12))
                       (input p))).
    { rewrite Hb. f_equal; [|f_equal]; lia. }
    split; [exact Hb'|].
    assert (Hlen : Py.len (behind p) = 12 - Py.len (input p)).
    { rewrite Hb'. unfold Py.len in *.
      rewrite length_firstn, length_skipn. lia. }
    split; [exact Hlen|lia].
Qed.

End DiagnosticFacts.

Lemma error_text_witness :
  ahead (set_pos (state "abcdefghijklmnopqrst") 13) = Py.str "nopqrst"
  /\ behind (set_pos (state "abcdefghijklmnopqrst") 13)
     = Py.str "bcdefghijklm"
  /\ List.length (behind (set_pos (state "abcdefghijklmnopqrst") 13))
     = 12%nat.
Proof.
  destruct (error_text "x" (set_pos (state "abcdefghijklmnopqrst") 13))
    as (_ & Ha & Hb & _).
  split; [|split].
  - rewrite Ha; [reflexivity|vm_compute; congruence].
  - rewrite (proj1 (Hb ltac:(vm_compute; split; congruence))). reflexivity.
  - apply Hb. vm_compute. split; congruence.
Defined.

Lemma behind_short_position_witness :
  behind (set_pos (state "abcdefgh") 6)
  = firstn 4 (skipn 2 (Py.str "abcdefgh"))
  /\ Py.len (behind (set_pos (state "abcdefgh") 6)) = 4
  /\ Py.len (behind (set_pos (state "abcdefgh") 6)) < 6.
Proof.
  destruct (behind_short_position (set_pos (state "abcdefgh") 6))
    as (_ & _ & Hmid).
  - vm_compute. split; congruence.
  - vm_compute. congruence.
  - apply Hmid. vm_compute. split; reflexivity.
Defined.

(** ** [Parser]: matching with the two parse points *)

Section MoreParserFacts.

Context {E O : Type} `{EqDec E}.

Lemma string_match_cases {A} `{EqDec A} (inj : list A -> @pinput E)
    (inp expected : list A) (p : @Parser E O) :
  0 <= pos_un p ->
  (firstn (List.length expected) (skipn (Z.to_nat (pos_un p)) inp)
   = expected
   /\ string_match inj inp expected p =
        (Ret (Some (inj expected)),
         set_pos_un p (pos_un p + Py.len expected)))
  \/ (firstn (List.length expected) (skipn (Z.to_nat (pos_un p)) inp)
      <> expected
      /\ string_match inj inp expected p = (Ret None, p)).
Proof.
  intros Hp.
  destruct (string_match_spec inj inp expected p Hp) as [Hyes Hno].
  destruct (Py.seq_eqb
              (firstn (List.length expected)
                 (skipn (Z.to_nat (pos_un p)) inp)) expected) eqn:Heq.
  - apply seq_eqb_eq in Heq. left. split; [assumption|].
    rewrite (Hyes Heq). now rewrite Heq.
  - right. assert (Hne : firstn (List.length expected)
                           (skipn (Z.to_nat (pos_un p)) inp) <> expected).
    { intros Hx. apply seq_eqb_eq in Hx. congruence. }
    split; [assumption|]. now apply Hno.
Qed.

(** The three ways [string] ends. *)
Lemma Parser_string_cases (s : list ascii) (p : @Parser E O) :
  0 <= pos_un p ->
  (Parser_matches p s
   /\ exists x, pinput_len x = Py.len s
        /\ Parser_string s p =
             (Ret (Some x), set_pos_un p (pos_un p + Py.len s)))
  \/ (~ Parser_matches p s /\ Parser_string s p = (Ret None, p))
  \/ (~ Parser_matches p s /\ Parser_string s p = (Raise AttributeError, p)).
Proof.
  intros Hp. rewrite Parser_string_unfold. unfold Parser_matches.
  destruct (p_input p) as [i|i].
  - destruct (string_match_cases InStr i s p Hp) as [[Hm ->]|[Hm ->]].
    + left. split; [assumption|]. now exists (InStr s).
    + right. left. now split.
  - destruct (codec p) as [c|].
    + destruct (string_match_cases InSeq i (map (native c) s) p Hp)
        as [[Hm ->]|[Hm ->]];
        unfold Py.len in *; rewrite length_map in *.
      * left. split; [now exists c|].
        exists (InSeq (map (native c) s)). split; [|reflexivity].
        simpl. unfold Py.len. now rewrite length_map.
      * right. left. split; [|reflexivity].
        intros (c' & [= <-] & Hc). contradiction.
    + right. right. split; [|reflexivity]. now intros (c' & [=] & _).
Qed.


Lemma firstn_app_split {A} (w s1 s2 : list A) :
  firstn (List.length (s1 ++ s2)) w = s1 ++ s2
  <-> firstn (List.length s1) w = s1
      /\ firstn (List.length s2) (skipn (List.length s1) w) = s2.
Proof.
  rewrite length_app. split.
  - intros Hw. split.
    + apply (f_equal (firstn (List.length s1))) in Hw.
      rewrite firstn_firstn, Nat.min_l in Hw by lia.
      rewrite Hw, firstn_app, Nat.sub_diag, firstn_all. simpl.
      apply app_nil_r.
    + rewrite firstn_skipn_comm, Hw.
      now rewrite skipn_app, skipn_all, Nat.sub_diag.
  - intros [H1 H2].
    rewrite <- (firstn_skipn (List.length s1) w) at 1.
    rewrite H1, firstn_app_2. now rewrite H2.
Qed.

Lemma Parser_matches_app (s1 s2 : list ascii) (p : @Parser E O) :
  0 <= pos_un p ->
  Parser_matches p (s1 ++ s2)
  <-> Parser_matches p s1
      /\ Parser_matches (set_pos_un p (pos_un p + Py.len s1)) s2.
Proof.
  intros Hp. unfold Parser_matches. simpl.
  replace (Z.to_nat (pos_un p + Py.len s1))
    with (List.length s1 + Z.to_nat (pos_un p))%nat by (unfold Py.len; lia).
  destruct (p_input p) as [i|i].
  - rewrite <- skipn_skipn. apply firstn_app_split.
  - rewrite <- skipn_skipn. split.
    + intros (c & Hc & Hw).
      rewrite <- (length_map (native c) (s1 ++ s2)), map_app in Hw.
      apply firstn_app_split in Hw.
      rewrite !length_map in Hw. destruct Hw as [H1 H2].
      split; exists c; auto.
    + intros [(c & Hc & H1) (c' & Hc' & H2)].
      assert (c' = c) by congruence. subst c'.
      exists c. split; [assumption|].
      rewrite <- (length_map (native c) (s1 ++ s2)), map_app.
      apply firstn_app_split.
      rewrite !length_map. auto.
Qed.

Lemma Parser_string_success (s : list ascii) (p q : @Parser E O) :
  0 <= pos_un p ->
  (exists x, Parser_string s p = (Ret (Some x), q))
  <-> Parser_matches p s /\ q = set_pos_un p (pos_un p + Py.len s).
Proof.
  intros Hp.
  destruct (Parser_string_cases s p Hp)
    as [(Hm & x & Hx & Hs)|[(Hm & Hs)|(Hm & Hs)]]; rewrite Hs.
  - split.
    + intros (x' & [= _ <-]). now split.
    + intros [_ ->]. now exists x.
  - split; [intros (x' & [=])|intros [Hy _]; contradiction].
  - split; [intros (x' & [=])|intros [Hy _]; contradiction].
Qed.

(** X22. For a parser with [pos_un >= 0], [string] matches a literal
    [s1 + s2] exactly when it matches [s1] and then, from the state that
    leaves, [s2]; the state left is the same. *)
Theorem Parser_string_app (s1 s2 : list ascii) (p q : @Parser E O) :
  0 <= pos_un p ->
  (exists x, Parser_string (s1 ++ s2) p = (Ret (Some x), q))
  <-> exists x1 x2 q1,
        Parser_string s1 p = (Ret (Some x1), q1)
        /\ Parser_string s2 q1 = (Ret (Some x2), q).
Proof.
  intros Hp. pose proof (len_nonneg s1) as H1.
  assert (Hq1 : 0 <= pos_un (set_pos_un p (pos_un p + Py.len s1)))
    by (simpl; lia).
  assert (Hlen : pos_un p + Py.len (s1 ++ s2)
                 = pos_un p + Py.len s1 + Py.len s2).
  { unfold Py.len. rewrite length_app. lia. }
  rewrite Parser_string_success, Parser_matches_app by assumption.
  split.
  - intros [[Hm1 Hm2] ->].
    destruct (proj2 (Parser_string_success s1 p
                       (set_pos_un p (pos_un p + Py.len s1)) Hp)
                (conj Hm1 eq_refl)) as [x1 Hx1].
    destruct (proj2 (Parser_string_success s2
                       (set_pos_un p (pos_un p + Py.len s1))
                       (set_pos_un (set_pos_un p (pos_un p + Py.len s1))
                          (pos_un p + Py.len s1 + Py.len s2)) Hq1)
                (conj Hm2 eq_refl)) as [x2 Hx2].
    exists x1, x2, (set_pos_un p (pos_un p + Py.len s1)).
    split; [assumption|]. rewrite Hx2, Hlen. reflexivity.
  - intros (x1 & x2 & q1 & Hx1 & Hx2).
    destruct (proj1 (Parser_string_success s1 p q1 Hp)
                (ex_intro _ x1 Hx1)) as [Hm1 ->].
    destruct (proj1 (Parser_string_success s2 _ q Hq1)
                (ex_intro _ x2 Hx2)) as [Hm2 ->].
    split; [now split|]. rewrite Hlen. reflexivity.
Qed.

End MoreParserFacts.

Section ParserBounds.

Context {E O : Type} `{EqDec E}.

Lemma Parser_matches_bound (s : list ascii) (p : @Parser E O) :
  0 <= pos_un p <= pinput_len (p_input p) ->
  Parser_matches p s ->
  pos_un p + Py.len s <= pinput_len (p_input p).
Proof.
  intros Hp Hm. unfold Parser_matches in Hm.
  assert (Hw : forall A (i e : list A),
             List.length e = List.length s ->
             0 <= pos_un p <= Py.len i ->
             firstn (List.length s) (skipn (Z.to_nat (pos_un p)) i) = e ->
             pos_un p + Py.len s <= Py.len i).
  { intros A i e He Hi Hf. apply (f_equal (@List.length A)) in Hf.
    rewrite length_firstn, length_skipn in Hf. unfold Py.len in *. lia. }
  destruct (p_input p) as [i|i]; simpl in *.
  - now apply (Hw _ i s).
  - destruct Hm as (c & _ & Hf).
    apply (Hw _ i (map (native c) s)); [apply length_map|assumption..].
Qed.

Lemma Parser_after_bounds (c : Parser_call) (p : @Parser E O) :
  0 <= pos_conf p <= pos_un p /\ pos_un p <= pinput_len (p_input p) ->
  p_input (Parser_after c p) = p_input p
  /\ 0 <= pos_conf (Parser_after c p) <= pos_un (Parser_after c p)
  /\ pos_un (Parser_after c p) <= pinput_len (p_input p).
Proof.
  intros [Hp Hl]. destruct c as [| |s]; simpl; try (repeat split; lia).
  destruct (Parser_string_cases s p ltac:(lia))
    as [(Hm & x & Hx & ->)|[(Hm & ->)|(Hm & ->)]]; simpl;
    try (repeat split; lia).
  pose proof (Parser_matches_bound s p ltac:(lia) Hm).
  pose proof (len_nonneg s). repeat split; lia.
Qed.

(** X23. In every state reached from [Parser(input, codec)] by calls of
    [start()], [confirm()] and [string(s)], the input is the one given
    and both parse points are within it:
    [0 <= pos_conf <= pos_un <= len(input)]. *)
Theorem Parser_points_in_bounds (i : @pinput E) (c : option (@Charset E))
    (cs : list Parser_call) :
  let p := Parser_after_all cs (Parser_init (O:=O) i c) in
  p_input p = i
  /\ 0 <= pos_conf p <= pos_un p
  /\ pos_un p <= pinput_len i.
Proof.
  assert (Hgen : forall (cs : list Parser_call) (p : @Parser E O),
             0 <= pos_conf p <= pos_un p
             /\ pos_un p <= pinput_len (p_input p) ->
             p_input (Parser_after_all cs p) = p_input p
             /\ 0 <= pos_conf (Parser_after_all cs p)
                <= pos_un (Parser_after_all cs p)
             /\ pos_un (Parser_after_all cs p) <= pinput_len (p_input p)).
  { intros l. induction l as [|a l IH]; intros p Hp; simpl.
    - destruct Hp. auto.
    - destruct (Parser_after_bounds a p Hp) as (Hi & Hc & Hu).
      rewrite <- Hi in Hu. destruct (IH (Parser_after a p) (conj Hc Hu))
        as (Hi' & Hc' & Hu').
      rewrite Hi' in *. rewrite Hi in *. auto. }
  intros p. apply (Hgen cs (Parser_init i c)). simpl.
  pose proof (len_nonneg (A:=ascii)). pose proof (len_nonneg (A:=E)).
  destruct i; simpl; split; try lia; auto.
Qed.

Lemma set_pos_un_same (p : @Parser E O) : set_pos_un p (pos_un p) = p.
Proof. now destruct p. Qed.

Lemma strings_move_un (ss : list (list ascii)) (p : @Parser E O) :
  exists u, Parser_after_all (map CallString ss) p = set_pos_un p u.
Proof.
  revert p. induction ss as [|s ss IH]; intros p.
  - exists (pos_un p). simpl. now rewrite set_pos_un_same.
  - change (Parser_after_all (map CallString (s :: ss)) p)
      with (Parser_after_all (map CallString ss) (snd (Parser_string s p))).
    destruct (Parser_string_state s p) as [->|(k & _ & ->)].
    + apply IH.
    + destruct (IH (set_pos_un p (pos_un p + k))) as [u ->].
      now exists u.
Qed.

(** X24. Matching that is not confirmed is abandoned by the next
    [start()]: after any number of [string] calls, matched or not,
    [remain()] and the confirmed parse point are what they were, and
    [start()] leaves the very state it would have left before them. *)
Theorem start_abandons (ss : list (list ascii)) (p : @Parser E O) :
  let q := Parser_after_all (map CallString ss) p in
  Parser_remain q = Parser_remain p
  /\ pos_conf q = pos_conf p
  /\ Parser_start q = Parser_start p.
Proof.
  intros q. destruct (strings_move_un ss p) as [u Hu]. fold q in Hu.
  rewrite Hu. repeat split.
Qed.

End ParserBounds.


Lemma Parser_string_app_witness :
  (exists x,
      Parser_string (Py.str "he" ++ Py.str "ll") (parser "hello")
      = (Ret (Some x), set_pos_un (parser "hello") 4))
  <-> exists x1 x2 q1,
        Parser_string (Py.str "he") (parser "hello") = (Ret (Some x1), q1)
        /\ Parser_string (Py.str "ll") q1
           = (Ret (Some x2), set_pos_un (parser "hello") 4).
Proof.
  apply (Parser_string_app (Py.str "he") (Py.str "ll") (parser "hello")
           (set_pos_un (parser "hello") 4)).
  vm_compute. congruence.
Defined.
